(** * Corporate Buzzword Generator API: the message-composition core of [app.py]

    A shallow embedding of [to_bullets], [apply_buzzwords], [make_subject],
    [sign_off], [compose_message] and [reply_suggestions], with the part of
    the Python runtime they rest on ([str] methods, the [re] module, the
    [random] module), followed by the properties the specification states
    about them. *)

From Stdlib Require Import String Ascii.
From Stdlib Require Import List NArith ZArith Bool Arith Lia.
Import ListNotations.

Set Implicit Arguments.

(** ** Python strings

    A Python [str] is a sequence of Unicode code points; [len], slicing and
    the regular-expression engine all count code points, so a string is a
    list of code points here. *)

Module Py.

Definition char := N.
Definition str := list char.

(** String literals of this file are UTF-8, as [app.py] is; [u] decodes one
    into its code points. *)
Fixpoint utf8 (pending : nat) (acc : N) (s : string) : str :=
  match s with
  | EmptyString => []
  | String a t =>
      let b := N_of_ascii a in
      match pending with
      | O =>
          if (b <? 128)%N then b :: utf8 0 0%N t
          else if (b <? 224)%N then utf8 1 (b - 192)%N t
          else if (b <? 240)%N then utf8 2 (b - 224)%N t
          else utf8 3 (b - 240)%N t
      | S O => (acc * 64 + (b - 128))%N :: utf8 0 0%N t
      | S p => utf8 p (acc * 64 + (b - 128))%N t
      end
  end.

Definition u (s : string) : str := utf8 0 0%N s.

(** The empty string. *)
Definition EMPTY : str := [].

Definition NL : char := 10%N.
Definition TAB : char := 9%N.
Definition SPACE : char := 32%N.
Definition HYPHEN : char := 45%N.
Definition STAR : char := 42%N.
Definition PERIOD : char := 46%N.
Definition SEMICOLON : char := 59%N.
Definition UNDERSCORE : char := 95%N.
Definition LOWER_S : char := 115%N.   (* s *)
Definition BULLET : char := 8226%N.   (* U+2022 *)
Definition EM_DASH : char := 8212%N.  (* U+2014 *)

Definition between (lo hi c : N) : bool := ((lo <=? c) && (c <=? hi))%N.

(** [str.isspace] on one code point, which is also the class [\s] of a
    [str] pattern: the white-space code points of the Unicode database. *)
Definition isspace (c : char) : bool :=
  between 9 13 c || between 28 32 c || (c =? 133)%N || (c =? 160)%N
  || (c =? 5760)%N || between 8192 8202 c || (c =? 8232)%N || (c =? 8233)%N
  || (c =? 8239)%N || (c =? 8287)%N || (c =? 12288)%N.

Definition is_ascii (c : char) : bool := (c <? 128)%N.
Definition ascii_upper (c : char) : bool := between 65 90 c.
Definition ascii_alpha (c : char) : bool := between 65 90 c || between 97 122 c.
Definition ascii_digit (c : char) : bool := between 48 57 c.
Definition ascii_lower (c : char) : char := if ascii_upper c then (c + 32)%N else c.

Definition char_eqb : char -> char -> bool := N.eqb.

Fixpoint str_eqb (a b : str) : bool :=
  match a, b with
  | [], [] => true
  | x :: a', y :: b' => char_eqb x y && str_eqb a' b'
  | _, _ => false
  end.

(** Truth value of a string or a list: [if x] holds for the non-empty ones. *)
Definition truthy (s : str) : bool :=
  match s with [] => false | _ :: _ => true end.

Definition truthy_list {A} (l : list A) : bool :=
  match l with [] => false | _ :: _ => true end.

Fixpoint lstrip (p : char -> bool) (s : str) : str :=
  match s with
  | [] => []
  | c :: t => if p c then lstrip p t else s
  end.

Definition rstrip (p : char -> bool) (s : str) : str := rev (lstrip p (rev s)).

(** [s.strip()] when [p] is [isspace], [s.strip(chars)] when [p] is
    membership in [chars]. *)
Definition strip_by (p : char -> bool) (s : str) : str := rstrip p (lstrip p s).

Definition strip (s : str) : str := strip_by isspace s.

Definition mem_char (chars : str) (c : char) : bool := existsb (char_eqb c) chars.

Definition strip_chars (chars : str) (s : str) : str := strip_by (mem_char chars) s.

(** [sep.join(parts)] *)
Fixpoint join (sep : str) (parts : list str) : str :=
  match parts with
  | [] => []
  | [p] => p
  | p :: rest => p ++ sep ++ join sep rest
  end.

(** [starts s p] : [s.startswith(p)] *)
Fixpoint starts (s p : str) : bool :=
  match p, s with
  | [], _ => true
  | x :: p', y :: s' => char_eqb x y && starts s' p'
  | _ :: _, [] => false
  end.

(** [s.replace(old, new)] for a non-empty [old]: the occurrences are taken
    from the left and do not overlap.  [skip] counts the characters of the
    occurrence under way that are still to be dropped. *)
Fixpoint replace_from (old new : str) (skip : nat) (s : str) : str :=
  match s with
  | [] => []
  | c :: t =>
      match skip with
      | S k => replace_from old new k t
      | O =>
          if starts s old
          then new ++ replace_from old new (pred (length old)) t
          else c :: replace_from old new 0 t
      end
  end.

Definition replace (old new s : str) : str := replace_from old new 0 s.

(** [l[:n]] and [l[a:b]] for non-negative bounds. *)
Definition slice_to {A} (n : nat) (l : list A) : list A := firstn n l.
Definition slice {A} (a b : nat) (l : list A) : list A := skipn a (firstn b l).

(** [l[:n]] for a Python integer [n]: a negative bound counts from the end. *)
Definition slice_to_Z {A} (n : Z) (l : list A) : list A :=
  if (n <? 0)%Z then firstn (Z.to_nat (Z.of_nat (length l) + n)) l
  else firstn (Z.to_nat n) l.

(** [range(lo, hi)] *)
Definition range (lo hi : Z) : list Z :=
  map (fun i => (lo + Z.of_nat i)%Z) (seq 0 (Z.to_nat (hi - lo))).

End Py.
Import Py.


(** ** The fragment of the [re] module the program uses

    A pattern is an alternation of sequences of atoms, the compiled form of
    the pattern text.  Matching follows the engine's backtracking order:
    alternatives from the left, greedy repetition first, so [match_re]
    returns the length of the match that [re] reports at a position. *)

Module Re.

Inductive atom : Type :=
| Ch (p : char -> bool)               (* one character: a literal, [\s], a set *)
| Opt (p : char -> bool)              (* [c?], greedy *)
| Plus (p : char -> bool)             (* [[...]+], greedy *)
| NotAhead (w : list (char -> bool))  (* [(?!w)] for a literal [w] *)
| WordB (word : char -> bool)         (* [\b], for the word class [\w] *)
| Bol                                 (* [^], without MULTILINE *)
| Eol.                                (* [$], without MULTILINE *)

Definition regex := list (list atom).

(** A literal under the default flags. *)
Definition lit (s : str) : list atom := map (fun c => Ch (char_eqb c)) s.

Definition is_word_opt (word : char -> bool) (c : option char) : bool :=
  match c with Some x => word x | None => false end.

(** [looking_at w s]: the literal [w] matches at the head of [s]. *)
Fixpoint looking_at (w : list (char -> bool)) (s : str) : bool :=
  match w, s with
  | [], _ => true
  | p :: w', c :: s' => p c && looking_at w' s'
  | _ :: _, [] => false
  end.

(** The rest of a greedy repetition, then the continuation [k]. *)
Fixpoint star_then (p : char -> bool) (k : option char -> str -> option nat)
    (prev : option char) (s : str) : option nat :=
  match s with
  | c :: t =>
      if p c then
        match star_then p k (Some c) t with
        | Some n => Some (S n)
        | None => k prev s
        end
      else k prev s
  | [] => k prev s
  end.

(** [match_atoms atoms prev s]: the number of characters the sequence
    consumes at the head of [s], where [prev] is the character before. *)
Fixpoint match_atoms (atoms : list atom) (prev : option char) (s : str)
    : option nat :=
  match atoms with
  | [] => Some 0
  | a :: rest =>
      match a with
      | Ch p =>
          match s with
          | c :: t => if p c then option_map S (match_atoms rest (Some c) t) else None
          | [] => None
          end
      | Opt p =>
          match s with
          | c :: t =>
              if p c then
                match match_atoms rest (Some c) t with
                | Some n => Some (S n)
                | None => match_atoms rest prev s
                end
              else match_atoms rest prev s
          | [] => match_atoms rest prev s
          end
      | Plus p =>
          match s with
          | c :: t =>
              if p c then option_map S (star_then p (match_atoms rest) (Some c) t)
              else None
          | [] => None
          end
      | NotAhead w => if looking_at w s then None else match_atoms rest prev s
      | WordB word =>
          if xorb (is_word_opt word prev) (is_word_opt word (hd_error s))
          then match_atoms rest prev s else None
      | Bol => match prev with None => match_atoms rest prev s | Some _ => None end
      | Eol =>
          match s with
          | [] => match_atoms rest prev s
          | [c] => if char_eqb c NL then match_atoms rest prev s else None
          | _ => None
          end
      end
  end.

Fixpoint match_re (r : regex) (prev : option char) (s : str) : option nat :=
  match r with
  | [] => None
  | alt :: r' =>
      match match_atoms alt prev s with
      | Some n => Some n
      | None => match_re r' prev s
      end
  end.

(** [re.sub(r, repl, s)] for a [repl] without escapes.  The scan tries every
    position from the left; after a match it resumes behind it ([skip]
    counts the matched characters still to be passed over).  No pattern of
    the program matches the empty string, and the engine's rule for empty
    matches is left out: a position without a non-empty match is copied. *)
Fixpoint sub_from (r : regex) (repl : str) (skip : nat) (prev : option char)
    (s : str) : str :=
  match s with
  | [] => []
  | c :: t =>
      match skip with
      | S k => sub_from r repl k (Some c) t
      | O =>
          match match_re r prev s with
          | Some (S n) => repl ++ sub_from r repl n (Some c) t
          | _ => c :: sub_from r repl 0 (Some c) t
          end
      end
  end.

Definition sub (r : regex) (repl s : str) : str := sub_from r repl 0 None s.

(** [re.split(r, s)] for a pattern without groups: the fragments between
    the matches, empty ones included. *)
Fixpoint split_from (r : regex) (skip : nat) (prev : option char) (s : str)
    : list str :=
  match s with
  | [] => [[]]
  | c :: t =>
      match skip with
      | S k => split_from r k (Some c) t
      | O =>
          match match_re r prev s with
          | Some (S n) => [] :: split_from r n (Some c) t
          | _ =>
              match split_from r 0 (Some c) t with
              | f :: fs => (c :: f) :: fs
              | [] => [[c]]
              end
          end
      end
  end.

Definition split (r : regex) (s : str) : list str := split_from r 0 None s.

End Re.

(** ** What the program takes from the Unicode database

    [str.lower], the class [\w] and case-insensitive matching are exact on
    ASCII; above it they depend on tables of the interpreter, which are
    parameters of the model. *)

Record UnicodeData : Type := {
  uni_lower : str -> str;           (* [s.lower()] for a non-ASCII [s] *)
  uni_isalnum : char -> bool;       (* [c.isalnum()] for a non-ASCII [c] *)
  uni_ci : char -> char -> bool     (* literal against character under IGNORECASE *)
}.

Section Unicode.
Variable U : UnicodeData.

Definition lower (s : str) : str :=
  if forallb is_ascii s then map ascii_lower s else uni_lower U s.

(** The class [\w] of a [str] pattern. *)
Definition is_word (c : char) : bool :=
  if is_ascii c then ascii_alpha c || ascii_digit c || char_eqb c UNDERSCORE
  else uni_isalnum U c.

(** A literal character of a pattern compiled with [re.IGNORECASE]. *)
Definition ci (p c : char) : bool :=
  if is_ascii p && is_ascii c then char_eqb (ascii_lower p) (ascii_lower c)
  else uni_ci U p c.

Definition ilit (s : str) : list Re.atom := map (fun c => Re.Ch (ci c)) s.

End Unicode.

(** ** Exceptions and the shared random source

    [random.choice] draws from the process-wide generator; a computation
    takes the stream of draws still to come and returns what is left of it.
    [None] stands for a raised exception ([KeyError], [IndexError]). *)

Module Rand.

Definition Rng := nat -> nat.

Definition M (A : Type) : Type := Rng -> option (A * Rng).

Definition ret {A} (a : A) : M A := fun g => Some (a, g).

Definition bind {A B} (m : M A) (f : A -> M B) : M B :=
  fun g => match m g with
           | Some (a, g') => f a g'
           | None => None
           end.

Definition raise {A} : M A := fun _ => None.

Definition lift {A} (o : option A) : M A :=
  match o with Some a => ret a | None => raise end.

(** [random.choice(items)]: one draw below [len(items)]; [IndexError] on an
    empty sequence. *)
Definition choice {A} (items : list A) : M A :=
  fun g =>
    match items with
    | [] => None
    | _ :: _ =>
        match nth_error items (g 0 mod length items) with
        | Some x => Some (x, fun i => g (S i))
        | None => None
        end
    end.

End Rand.
Import Rand.

Declare Scope py_scope.
Delimit Scope py_scope with py.
Notation "x <- m ;; k" := (bind m (fun x => k))
  (at level 61, m at next level, right associativity) : py_scope.
Open Scope py_scope.

(** ** Dictionaries *)

Section Dict.
Variables K V : Type.
Variable eqb : K -> K -> bool.

Definition dict := list (K * V).

(** [d[k]] *)
Fixpoint subscript (d : dict) (k : K) : option V :=
  match d with
  | [] => None
  | (k', v) :: d' => if eqb k k' then Some v else subscript d' k
  end.

(** [d.get(k, default)] *)
Definition get (d : dict) (k : K) (default : V) : V :=
  match subscript d k with Some v => v | None => default end.

End Dict.

(** ** Models *)

Inductive Tone :=
  formal | casual | executive | empathetic | assertive | friendly | persuasive.

Inductive Medium := email | slack | teams | whatsapp | text | doc.

Inductive Length := short | medium | long.

Inductive Locale := US | IN | UK | AU | SG | Generic.

Inductive Style := neutral | positive | pushback | clarify | acknowledge.

Scheme Equality for Tone.
Scheme Equality for Medium.
Scheme Equality for Length.
Scheme Equality for Locale.
Scheme Equality for Style.

Record MessageVariant : Type := {
  subject : option str;
  message : str
}.

Record ReplySuggestionsRequest : Type := {
  incoming : str;
  style : Style;
  req_medium : Medium;
  suggestions : Z
}.

(** ** Phrase banks and templates *)

Definition SIGN_OFF : dict Medium (list str) :=
  [ (email, [u "Best regards,"; u "Kind regards,"; u "Thanks,"; u "Sincerely,";
             u "Warm regards,"]);
    (slack, [u "Thanks!"; u "Appreciate it!"; u "Cheers!"; u "— thanks"]);
    (teams, [u "Thanks!"; u "Appreciated."; u "Cheers!"]);
    (whatsapp, [u "Thanks!"; u "Much appreciated."; u "Cheers!"]);
    (text, [u "Thanks!"; u "Appreciate it."]);
    (doc, [EMPTY]) ].

Definition OPENERS : dict Tone (list str) :=
  [ (formal, [u "Hope you are doing well.";
              u "I wanted to reach out regarding the following.";
              u "Following up on the item below.";
              u "Sharing a quick update."]);
    (casual, [u "Quick update:"; u "Heads up—"; u "FYI—"; u "Ping on this:"]);
    (executive, [u "Executive summary:"; u "At a glance:"; u "Top line:";
                 u "Key call-outs:"]);
    (empathetic, [u "I understand this is time-sensitive.";
                  u "Appreciate the effort here.";
                  u "Thanks for your patience—";
                  u "Completely understand the context."]);
    (assertive, [u "We need a decision to unblock progress.";
                 u "Action required to stay on track.";
                 u "To hit our target, we need the following.";
                 u "Flagging a blocker:"]);
    (friendly, [u "Quick one 🙂"; u "Hope your day’s going well!";
                u "Just checking in—"; u "Sharing a quick note—"]);
    (persuasive, [u "Here’s why this approach works:";
                  u "The data strongly supports this.";
                  u "This will help us deliver faster with less risk.";
                  u "Recommended path forward:"]) ].

Definition EMAIL_SUBJECT_PREFIX : dict Tone (list str) :=
  [ (formal, [u "Update:"; u "Request:"; u "Follow-up:"; u "Action needed:"]);
    (executive, [u "Summary:"; u "Heads-up:"; u "Decision needed:";
                 u "Risks & Next Steps:"]);
    (assertive, [u "Blocker:"; u "Decision required:"; u "Deadline risk:"]);
    (empathetic, [u "Appreciate your help:"; u "Thanks & quick ask:";
                  u "Thanks for the support:"]);
    (casual, [u "Quick update:"; u "Small ask:"; u "Heads-up:"]);
    (friendly, [u "Hey—quick one:"; u "Tiny ask:"; u "Quick sync?"]);
    (persuasive, [u "Proposal:"; u "Why this works:"; u "Recommended path:"]) ].

Definition LOCALE_FLAVOR : dict Locale (dict str (list str)) :=
  [ (IN, [ (u "politeness", [u "Kindly let me know your thoughts.";
                             u "Please advise if this works for you.";
                             u "Requesting your approval to proceed."]);
           (u "greetings", [u "Hope you are doing well.";
                            u "Hope you’re keeping well."]) ]);
    (US, [ (u "politeness", [u "Would love your feedback.";
                             u "Let me know if you have any questions.";
                             u "If you're good with this, I’ll proceed."]);
           (u "greetings", [u "Hope you're doing well.";
                            u "Hope your week is going well."]) ]);
    (UK, [ (u "politeness", [u "Would you be happy to proceed?";
                             u "Grateful for your thoughts.";
                             u "Do let me know if that suits."]);
           (u "greetings", [u "Trust you're well."; u "Hope all's well."]) ]);
    (Generic, [ (u "politeness", []); (u "greetings", []) ]);
    (AU, [ (u "politeness", [u "Keen to hear your thoughts."]);
           (u "greetings", [u "Hope you’re well."]) ]);
    (SG, [ (u "politeness", [u "Appreciate your advice."]);
           (u "greetings", [u "Hope you’re well."]) ]) ].

(** ** The composition core *)

(** [pick]: a random entry, or the empty string for an empty bank. *)
Definition pick (items : list str) : M str :=
  if truthy_list items then choice items else ret (EMPTY).

(** The pattern of [to_bullets]: [\n|;|\s-\s]. *)
Definition BULLET_SPLIT : Re.regex :=
  [ [Re.Ch (char_eqb NL)];
    [Re.Ch (char_eqb SEMICOLON)];
    [Re.Ch isspace; Re.Ch (char_eqb HYPHEN); Re.Ch isspace] ].

(** The characters [to_bullets] trims from a fragment: [" -*\t"]. *)
Definition BULLET_TRIM : str := u " -*" ++ [TAB].

(** The patterns of [make_subject]: [^[-•\s]+] and [\.$]. *)
Definition leading_mark (c : char) : bool :=
  char_eqb c HYPHEN || char_eqb c BULLET || isspace c.

Definition LEADING_MARKS : Re.regex := [ [Re.Bol; Re.Plus leading_mark] ].

Definition TRAILING_PERIOD : Re.regex :=
  [ [Re.Ch (char_eqb PERIOD); Re.Eol] ].

Definition make_subject (tone : Tone) (bullets : list str) : M str :=
  prefix <- pick (get Tone_beq EMAIL_SUBJECT_PREFIX tone [u "Update:"]) ;;
  let core := match bullets with b :: _ => b | [] => u "Update" end in
  (* Keep it concise *)
  let core := Re.sub LEADING_MARKS (EMPTY) core in
  let core := Re.sub TRAILING_PERIOD (EMPTY) core in
  ret (strip (prefix ++ u " " ++ slice_to 72 core)).

Definition sign_off (medium : Medium) : M str :=
  pick (get Medium_beq SIGN_OFF medium [EMPTY]).

Section Core.
Variable U : UnicodeData.

Definition BUZZWORD_MAP_LEVELS : list (list (list Re.atom * str)) :=
  [ (* Level 0 (identity) *)
    [];
    (* Level 1 *)
    [ (ilit U (u "help"), u "support");
      (ilit U (u "ask"), u "request");
      (ilit U (u "finish"), u "complete");
      (ilit U (u "start"), u "kick off");
      (ilit U (u "check"), u "review");
      (ilit U (u "talk"), u "sync");
      (ilit U (u "plan"), u "roadmap");
      (ilit U (u "fix"), u "resolve");
      (ilit U (u "problem"), u "issue");
      (ilit U (u "delay"), u "slippage");
      (ilit U (u "fast"), u "expedited");
      (ilit U (u "slow"), u "deprioritized");
      (ilit U (u "meet"), u "connect") ];
    (* Level 2 *)
    [ (ilit U (u "do"), u "execute");
      (ilit U (u "make"), u "build");
      (ilit U (u "try"), u "explore");
      (ilit U (u "change"), u "iterate");
      (ilit U (u "improve"), u "optimize");
      (ilit U (u "decide"), u "align on a decision");
      (ilit U (u "team"), u "cross-functional team");
      (ilit U (u "work together"), u "collaborate");
      (ilit U (u "because"), u "so that");
      (ilit U (u "goal"), u "north star");
      (ilit U (u "idea"), u "proposal") ];
    (* Level 3 *)
    [ (ilit U (u "use"), u "leverage");
      (* use (?!case) *)
      (ilit U (u "use ") ++ [Re.NotAhead (map (ci U) (u "case"))], u "utilize");
      (ilit U (u "result"), u "outcome");
      (ilit U (u "plan"), u "strategic roadmap");
      (ilit U (u "meeting"), u "working session");
      (ilit U (u "deadline"), u "target date");
      (* notes? *)
      (ilit U (u "note") ++ [Re.Opt (ci U LOWER_S)], u "takeaways");
      (ilit U (u "OK"), u "actionable");
      (ilit U (u "good"), u "impactful");
      (ilit U (u "bad"), u "non-optimal");
      (ilit U (u "next"), u "forward-looking") ] ].

(** [rf"\b{pat}\b"], compiled with [re.IGNORECASE]. *)
Definition whole_word (pat : list Re.atom) : Re.regex :=
  [ [Re.WordB (is_word U)] ++ pat ++ [Re.WordB (is_word U)] ].

(** The loop over the de-duplication set [seen] and the list [deduped]. *)
Definition dedupe_step (acc : list str * list str) (b : str)
    : list str * list str :=
  let (seen, deduped) := acc in
  if existsb (str_eqb (lower U b)) seen then (seen, deduped)
  else (lower U b :: seen, deduped ++ [b]).

Definition dedupe (bullets : list str) : list str :=
  snd (fold_left dedupe_step bullets ([], [])).

Definition to_bullets (text : str) : list str :=
  (* Split on newlines or ";" or "- " and clean *)
  let raw := Re.split BULLET_SPLIT text in
  let bullets :=
    map (strip_chars BULLET_TRIM)
        (filter (fun x => truthy x && truthy (strip x)) raw) in
  (* De-duplicate while preserving order *)
  let deduped := dedupe bullets in
  slice_to 8 deduped.

(** One level of the map: every pair in the dictionary's order. *)
Definition apply_level (lvl : list (list Re.atom * str)) (out : str) : str :=
  fold_left (fun out pr => Re.sub (whole_word (fst pr)) (snd pr) out) lvl out.

(** [apply_buzzwords]; [None] is the [IndexError] of a level beyond the
    map. *)
Definition apply_buzzwords (s : str) (intensity : Z) : option str :=
  if (intensity <=? 0)%Z then Some s
  else
    fold_left
      (fun out lvl =>
         match out with
         | None => None
         | Some out =>
             match nth_error BUZZWORD_MAP_LEVELS (Z.to_nat lvl) with
             | Some m => Some (apply_level m out)
             | None => None
             end
         end)
      (range 1 (intensity + 1)) (Some s).

Definition in_email_doc (m : Medium) : bool :=
  Medium_beq m email || Medium_beq m doc.

(** The sentence chosen by [length]. *)
Definition core_sentence (length : Length) (summary : str) (bullets : list str)
    : str :=
  match length with
  | short => summary ++ u "."
  | medium =>
      summary
      ++ u ". Requesting your input on the above so we can proceed without delay."
  | long =>
      summary ++ u ". Here's the context: "
      ++ (if (2 <? List.length bullets)%nat then join (u ", ") (slice 2 5 bullets)
          else u "see above")
      ++ u ". "
      ++ u "Next steps: we'll align on owners & timelines after your feedback."
  end.

(** The body assembly between the draws of the phrases and the sign-off:
    [body_parts] as it stands when [sign_off] is called. *)
Definition body_assembly (text : str) (bullets : list str) (tone : Tone)
    (medium : Medium) (length : Length) (include_bullets : bool)
    (greeting opener politeness : str) : list str :=
  let body_parts := [] in
  let body_parts :=
    if in_email_doc medium && truthy greeting
    then body_parts ++ [greeting] else body_parts in
  let body_parts :=
    if truthy opener then body_parts ++ [opener] else body_parts in
  (* Bullet summary if requested or if executive tone with medium email/doc *)
  let body_parts :=
    if include_bullets || (Tone_beq tone executive && in_email_doc medium)
    then
      if truthy_list bullets
      then body_parts
           ++ [join [NL] (map (fun b => u "• " ++ b) (slice_to 5 bullets))]
      else body_parts
    else body_parts in
  (* Single-line summary *)
  let summary :=
    if truthy_list bullets then join (u " ") (slice_to 2 bullets) else text in
  let body_parts := body_parts ++ [core_sentence length summary bullets] in
  if truthy politeness then body_parts ++ [politeness] else body_parts.

(** [compose_message] up to the call of [sign_off]: the bullets and
    [body_parts]. *)
Definition body_before_sign_off (text : str) (tone : Tone) (medium : Medium)
    (length : Length) (locale : Locale) (include_bullets : bool)
    : M (list str * list str) :=
  let bullets := to_bullets text in
  openers <- lift (subscript Tone_beq OPENERS tone) ;;
  opener <- pick openers ;;
  generic <- lift (subscript Locale_beq LOCALE_FLAVOR Generic) ;;
  let locale_bits := get Locale_beq LOCALE_FLAVOR locale generic in
  greeting <- pick (get str_eqb locale_bits (u "greetings") []) ;;
  politeness <- pick (get str_eqb locale_bits (u "politeness") []) ;;
  ret (bullets,
       body_assembly text bullets tone medium length include_bullets
         greeting opener politeness).

Definition compose_message (text : str) (tone : Tone) (medium : Medium)
    (length : Length) (locale : Locale) (include_bullets add_subject : bool)
    : M MessageVariant :=
  bb <- body_before_sign_off text tone medium length locale include_bullets ;;
  let bullets := fst bb in
  let body_parts := snd bb in
  s_off <- sign_off medium ;;
  let body_parts :=
    if truthy s_off then body_parts ++ [s_off] else body_parts in
  let msg := join [NL; NL] (filter truthy body_parts) in
  subj <- (if Medium_beq medium email && add_subject
           then s <- make_subject tone bullets ;; ret (Some s)
           else ret None) ;;
  ret {| subject := subj; message := msg |}.

End Core.

(** The banks of [reply_suggestions]. *)
Definition style_map : dict Style (list str) :=
  [ (neutral, [u "Thanks for the update—got it.";
               u "Acknowledged. I’ll keep you posted.";
               u "Noted, thanks."]);
    (positive, [u "This looks great—thanks for pushing it forward!";
                u "Nice progress—appreciate the momentum.";
                u "Awesome—thanks for the clarity!"]);
    (pushback, [u "Thanks—timeline is tight. Can we prioritize the critical path and revisit the rest next sprint?";
                u "Appreciate it. Given constraints, proposing we de-scope X to hit the target date—thoughts?";
                u "Understood. For feasibility, can we align on the must-haves first?"]);
    (clarify, [u "Thanks—could you clarify the owner for the next step?";
               u "Helpful. What’s the expected date for the handoff?";
               u "Got it—what’s the definition of done here?"]);
    (acknowledge, [u "Received, thanks.";
                   u "Acknowledged—will do.";
                   u "Noted—appreciate it."]) ].

(** [reply_suggestions]: the list under the key ["replies"]; [None] is the
    [KeyError] of [style_map["neutral"]]. *)
Definition reply_suggestions (req : ReplySuggestionsRequest) : option (list str) :=
  match subscript Style_beq style_map neutral with
  | None => None
  | Some dflt =>
      let base := get Style_beq style_map (style req) dflt in
      let n := Z.min (suggestions req) (Z.of_nat (List.length base)) in
      let replies := slice_to_Z n base in
      (* Medium-savvy tweaks *)
      let replies :=
        if Medium_beq (req_medium req) slack || Medium_beq (req_medium req) teams
        then map (replace (u "—") (u " - ")) replies
        else replies in
      Some replies
  end.

(** ** Vocabulary of the specification *)

(** [ends_with s w]: [s.endswith(w)]. *)
Definition ends_with (s w : str) : Prop := exists x, s = x ++ w.

(** [l1] is an order-preserving prefix of [l2]. *)
Definition prefix_of {A} (l1 l2 : list A) : Prop := exists rest, l2 = l1 ++ rest.

(** [contains s w]: [w] occurs in [s]. *)
Definition contains (s w : str) : Prop := exists pre post, s = pre ++ w ++ post.

(** The bullet block of the message: at most the first five bullets, each
    behind a bullet marker, one per line. *)
Definition bullet_block (bullets : list str) : str :=
  join [NL] (map (fun b => u "• " ++ b) (firstn 5 bullets)).

(** The single-line summary of [compose_message]. *)
Definition summary_of (txt : str) (bullets : list str) : str :=
  if truthy_list bullets then join (u " ") (slice_to 2 bullets) else txt.

(** The bank a tone selects its subject prefix from. *)
Definition subject_prefixes (tone : Tone) : list str :=
  get Tone_beq EMAIL_SUBJECT_PREFIX tone [u "Update:"].

(** The first bullet as [make_subject] cleans it, before the cut to 72. *)
Definition subject_core_source (bullets : list str) : str :=
  match bullets with b :: _ => b | [] => u "Update" end.

Definition subject_core_cleaned (bullets : list str) : str :=
  Re.sub TRAILING_PERIOD (EMPTY) (Re.sub LEADING_MARKS (EMPTY) (subject_core_source bullets)).

(** What the two substitutions of [make_subject] compute: the length of
    the leading run of a class, and a string without the period that stands
    at its end or before its final newline. *)
Fixpoint run (p : char -> bool) (s : str) : nat :=
  match s with
  | c :: t => if p c then S (run p t) else 0
  | [] => 0
  end.

Definition at_end (t : str) : bool :=
  match t with
  | [] => true
  | [x] => char_eqb x NL
  | _ => false
  end.

Fixpoint drop_final_period (s : str) : str :=
  match s with
  | [] => []
  | c :: t =>
      if char_eqb PERIOD c && at_end t then t else c :: drop_final_period t
  end.

(** What [BULLET_SPLIT] matches at the head of [c :: t], and the strings
    in which it matches nowhere. *)
Definition window (c : char) (t : str) : bool :=
  isspace c
  && match t with
     | d :: e :: _ => char_eqb HYPHEN d && isspace e
     | _ => false
     end.

Definition sep_len (c : char) (t : str) : option nat :=
  if char_eqb NL c then Some 1%nat
  else if char_eqb SEMICOLON c then Some 1%nat
  else if window c t then Some 3%nat
  else None.

Fixpoint calm (s : str) : bool :=
  match s with
  | [] => true
  | c :: t =>
      negb (char_eqb NL c) && negb (char_eqb SEMICOLON c) && negb (window c t)
      && calm t
  end.

(** A bullet that can be read back from a newline-joined list: nothing in
    it separates, and it does not end with a hyphen. *)
Definition readable (b : str) : Prop :=
  calm b = true /\ forall y c, b = y ++ [c] -> char_eqb HYPHEN c = false.

(** The subject line as the specification describes it: a prefix of the
    tone's bank, then a core of at most 72 characters with no leading dash
    or bullet marker and no trailing period. *)
Definition subject_as_specified (tone : Tone) (subj : str) : Prop :=
  exists prefix core,
    In prefix (subject_prefixes tone)
    /\ subj = prefix ++ u " " ++ core
    /\ (List.length core <= 72)%nat
    /\ hd_error core <> Some HYPHEN
    /\ hd_error core <> Some BULLET
    /\ ~ ends_with core (u ".").

(** The replies as an exact prefix of the style's bank, [min(requested, 3)]
    long. *)
Definition replies_prefix_of_bank (req : ReplySuggestionsRequest) : Prop :=
  exists replies bank,
    reply_suggestions req = Some replies
    /\ subscript Style_beq style_map (style req) = Some bank
    /\ List.length replies = Z.to_nat (Z.min (suggestions req) 3)
    /\ prefix_of replies bank.

(** The medium's tweak of a reply: the em-dash becomes [" - "] on slack and
    teams. *)
Definition medium_tweak (m : Medium) (r : str) : str :=
  match m with
  | slack | teams => replace (u "—") (u " - ") r
  | _ => r
  end.

(** The second tier in the specification's words: each word of the tier, in
    the order of the table, replaced at every whole-word, case-insensitive
    occurrence. *)
Definition replace_whole_word (U : UnicodeData) (word repl s : str) : str :=
  Re.sub [ [Re.WordB (is_word U)] ++ ilit U word ++ [Re.WordB (is_word U)] ] repl s.

Definition TIER_2_WORDS : list (str * str) :=
  [ (u "do", u "execute"); (u "make", u "build"); (u "try", u "explore");
    (u "change", u "iterate"); (u "improve", u "optimize");
    (u "decide", u "align on a decision"); (u "team", u "cross-functional team");
    (u "work together", u "collaborate"); (u "because", u "so that");
    (u "goal", u "north star"); (u "idea", u "proposal") ].

Definition tier_2_pass (U : UnicodeData) (s : str) : str :=
  fold_left (fun out wr => replace_whole_word U (fst wr) (snd wr) out)
            TIER_2_WORDS s.

(** A sequence that opens with an atom consuming a character. *)
Definition starts_with_char (atoms : list Re.atom) : bool :=
  match atoms with
  | Re.Ch _ :: _ | Re.Plus _ :: _ => true
  | _ => false
  end.

(** Tables of an interpreter whose Unicode database has no letter above
    ASCII, for running the model on concrete inputs. *)
Definition ascii_tables : UnicodeData :=
  {| uni_lower := fun s => s;
     uni_isalnum := fun _ => false;
     uni_ci := fun _ _ => false |}.

Definition zero_draws : Rng := fun _ => 0.

(** ** The endpoints *)

(** [fastapi.HTTPException] *)
Record HTTPException : Type := {
  status_code : Z;
  detail : str
}.

(** A dependency either lets the request through or raises. *)
Inductive outcome : Type :=
| Accepted
| Rejected (e : HTTPException).

(** Truth value of an [Optional[str]]: [None] and the empty string are
    false. *)
Definition truthy_opt (o : option str) : bool :=
  match o with Some s => truthy s | None => false end.

Definition opt_str_eqb (a b : option str) : bool :=
  match a, b with
  | Some x, Some y => str_eqb x y
  | None, None => true
  | _, _ => false
  end.

(** [require_proxy_secret]; [PROXY_SECRET] is the value of the environment
    variable, [None] when it is not set. *)
Definition require_proxy_secret (PROXY_SECRET x_rapidapi_proxy_secret : option str)
    : outcome :=
  if truthy_opt PROXY_SECRET then
    if negb (truthy_opt x_rapidapi_proxy_secret) then
      Rejected {| status_code := 401;
                  detail := u "Missing X-RapidAPI-Proxy-Secret header" |}
    else if negb (opt_str_eqb x_rapidapi_proxy_secret PROXY_SECRET) then
      Rejected {| status_code := 401;
                  detail := u "Invalid X-RapidAPI-Proxy-Secret header" |}
    else Accepted
  else
    (* If PROXY_SECRET is not set, allow all. *)
    Accepted.

Record PolishRequest : Type := {
  pr_text : str;
  pr_tone : Tone;
  pr_medium : Medium;
  pr_length : Length;
  pr_locale : Locale;
  pr_suggestions : Z;
  pr_add_subject : bool;
  pr_include_bullets : bool
}.

(** The dictionary under ["meta"]. *)
Record PolishMeta : Type := {
  meta_tone : Tone;
  meta_medium : Medium;
  meta_length : Length;
  meta_locale : Locale;
  meta_suggestions : Z
}.

Record PolishResponse : Type := {
  variants : list MessageVariant;
  meta : PolishMeta
}.



(** [random.random()] is [k / 2^53] for a [k] drawn below [2^53]; the model
    returns the numerator, and [random.random() < 0.5] is [k < 2^52]. *)
Definition random_random : M N :=
  fun g => Some ((N.of_nat (g 0%nat) mod 2 ^ 53)%N, fun i => g (S i)).

Definition below_half (k : N) : bool := (k <? 2 ^ 52)%N.

Section Endpoints.
Variable U : UnicodeData.

(** [seeded n]: the draws of the shared generator after [random.seed(n)]. *)
Variable seeded : Z -> Rng.

(** One round of the loop of [polish]: the variant that is appended. *)
Definition polish_variant (req : PolishRequest) : M MessageVariant :=
  v <- compose_message U (pr_text req) (pr_tone req) (pr_medium req)
         (pr_length req) (pr_locale req) (pr_include_bullets req)
         (pr_add_subject req) ;;
  (* Add slight variation by applying buzzwords lightly for some variants *)
  r <- random_random ;;
  if below_half r then
    m <- lift (apply_buzzwords U (message v) 1) ;;
    match subject v with
    | Some s =>
        if truthy s then
          s' <- lift (apply_buzzwords U s 1) ;;
          ret {| subject := Some s'; message := m |}
        else ret {| subject := Some s; message := m |}
    | None => ret {| subject := None; message := m |}
    end
  else ret v.

Fixpoint polish_loop (rounds : list Z) (req : PolishRequest)
    (variants : list MessageVariant) : M (list MessageVariant) :=
  match rounds with
  | [] => ret variants
  | _ :: rest =>
      v <- polish_variant req ;;
      polish_loop rest req (variants ++ [v])
  end.

(** [polish]: return multiple polished variants according to
    tone/medium/length/locale. *)
Definition polish (req : PolishRequest) : option PolishResponse :=
  (* stable-ish randomness *)
  let g := seeded (Z.of_nat (List.length (pr_text req)) + pr_suggestions req) in
  match polish_loop (range 0 (pr_suggestions req)) req [] g with
  | Some (vs, _) =>
      Some {| variants := vs;
              meta := {| meta_tone := pr_tone req;
                         meta_medium := pr_medium req;
                         meta_length := pr_length req;
                         meta_locale := pr_locale req;
                         meta_suggestions := pr_suggestions req |} |}
  | None => None
  end.


End Endpoints.

(** The map of [phrases]. *)
Definition PHRASES : dict str (list str) :=
  [ (u "one_on_one",
     [u "Agenda: updates, blockers, next sprint priorities.";
      u "I’d appreciate feedback on X and growth areas.";
      u "What would make the biggest impact if I focused on it this week?"]);
    (u "status",
     [u "Green on scope; amber on timeline; risk on dependency Y.";
      u "On track overall; one risk identified—mitigation in progress.";
      u "Blocked on approval; ETA slips by 2 days without decision."]);
    (u "follow_up",
     [u "Looping back on the below—any update?";
      u "Gentle nudge in case this got buried.";
      u "Re-surfacing this for visibility—appreciate a quick look."]);
    (u "wfh",
     [u "Requesting WFH on <dates>—deliverables unaffected.";
      u "WFH next week due to personal commitment; coverage planned.";
      u "Seeking approval for remote work on <date>; meetings unaffected."]) ].

(** [k in d] *)
Definition dict_mem {V} (k : str) (d : dict str V) : bool :=
  existsb (fun kv => str_eqb k (fst kv)) d.

(** [phrases(context)]; [None] is the [KeyError] of [base[context]]. *)
Definition phrases (context : option str) : option (dict str (list str)) :=
  let base := PHRASES in
  match context with
  | Some c =>
      if truthy c && dict_mem c base then
        match subscript str_eqb base c with
        | Some l => Some [(c, l)]
        | None => None
        end
      else Some base
  | None => Some base
  end.

(** The body of the loop of [apply_buzzwords] over the levels. *)
Definition level_step (U : UnicodeData) (out : option str) (lvl : Z)
    : option str :=
  match out with
  | None => None
  | Some out =>
      match nth_error (BUZZWORD_MAP_LEVELS U) (Z.to_nat lvl) with
      | Some m => Some (apply_level U m out)
      | None => None
      end
  end.

(** A pattern that opens with an ASCII letter, matched without regard to
    case. *)
Definition opens_with_letter (U : UnicodeData) (pat : list Re.atom) : Prop :=
  exists c rest, pat = Re.Ch (ci U c) :: rest /\ ascii_alpha c = true.

(** A subject prefix of at least two and at most 23 characters that
    neither begins nor ends with white space. *)
Definition well_formed_prefix (p : str) : bool :=
  match p, rev p with
  | h :: _ :: _, l :: _ =>
      negb (isspace h) && negb (isspace l) && (List.length p <=? 23)%nat
  | _, _ => false
  end.

(** The greetings of a locale, as [compose_message] looks them up. *)
Definition locale_greetings (loc : Locale) : list str :=
  get str_eqb
    (get Locale_beq LOCALE_FLAVOR loc [ (u "politeness", []); (u "greetings", []) ])
    (u "greetings") [].

Definition locale_politeness (loc : Locale) : list str :=
  get str_eqb
    (get Locale_beq LOCALE_FLAVOR loc [ (u "politeness", []); (u "greetings", []) ])
    (u "politeness") [].

(** The optional parts of the body, each a list of one part or none. *)
Definition greeting_part (med : Medium) (greeting : str) : list str :=
  if in_email_doc med && truthy greeting then [greeting] else [].

Definition optional_part (p : str) : list str :=
  if truthy p then [p] else [].

Definition bullet_part (tone : Tone) (med : Medium) (include_bullets : bool)
    (bullets : list str) : list str :=
  if include_bullets || (Tone_beq tone executive && in_email_doc med)
  then if truthy_list bullets then [bullet_block bullets] else []
  else [].

(** What every variant of [polish] satisfies: the subject is there exactly
    for an email with [add_subject], it is never empty, and neither is the
    message. *)
Definition variant_well_formed (req : PolishRequest) (v : MessageVariant)
    : Prop :=
  (subject v <> None <-> (pr_medium req = email /\ pr_add_subject req = true))
  /\ subject v <> Some EMPTY
  /\ message v <> EMPTY.

(** The longest subject prefix of all tones. *)
Definition longest_subject_prefix : nat :=
  fold_right Nat.max 0%nat
    (map (@List.length char) (flat_map snd EMAIL_SUBJECT_PREFIX)).

(** [allowed_sign_offs m]: the bank the sign-off of a medium is drawn from. *)
Definition allowed_sign_offs (m : Medium) : list str :=
  get Medium_beq SIGN_OFF m [EMPTY].

(** The characters [apply_buzzwords] cannot touch: ASCII that is no
    letter. *)
Definition plain_char (c : char) : bool := is_ascii c && negb (ascii_alpha c).

(** * Properties *)

(** ** The runtime model on examples *)

Example u_ascii : u "a; b" = [97; 59; 32; 98]%N.
Proof. reflexivity. Qed.

Example u_em_dash : u "—" = [EM_DASH].
Proof. reflexivity. Qed.

Example u_bullet : u "• x" = [BULLET; SPACE; 120%N].
Proof. reflexivity. Qed.

Example u_emoji : u "🙂" = [128578%N].
Proof. reflexivity. Qed.

Example strip_example : strip (u "  a b " ++ [NL]) = u "a b".
Proof. reflexivity. Qed.

Example strip_chars_example : strip_chars (u " -*" ++ [TAB]) (u "- *a - b* ") = u "a - b".
Proof. reflexivity. Qed.

Example replace_example : replace (u "—") (u " - ") (u "x—y—") = u "x - y - ".
Proof. reflexivity. Qed.

Example sub_guard_example :
  Re.sub (whole_word ascii_tables
            (ilit ascii_tables (u "use ")
             ++ [Re.NotAhead (map (ci ascii_tables) (u "case"))]))
         (u "utilize") (u "use case, use Case, use it")
  = u "use case, use Case, utilizeit".
Proof. vm_compute. reflexivity. Qed.

Example split_example :
  Re.split BULLET_SPLIT (u "a - b;c -d" ++ [NL]) = [u "a"; u "b"; u "c -d"; EMPTY].
Proof. vm_compute. reflexivity. Qed.

(** ** The bullet extractor *)

(** C8: [to_bullets] on ["a; b - c\nA"] returns exactly [["a"; "b"; "c"]]:
    the text is split at the semicolon, at the hyphen between spaces and at
    the newline, the fragments are trimmed, and the final ["A"] is dropped
    as a case-insensitive duplicate of ["a"]. *)
Theorem to_bullets_spec_example (U : UnicodeData) :
  to_bullets U (u "a; b - c" ++ [NL] ++ u "A") = [u "a"; u "b"; u "c"].
Proof. vm_compute. reflexivity. Qed.

(** C3: [to_bullets] is not idempotent on its own output.  The fragment
    ["-"] passes the filter, which tests [x.strip()], and is then trimmed to
    the empty bullet by [x.strip(" -*\t")]; on the newline-joined output the
    empty fragment is filtered out, so the second run returns no bullet. *)
Theorem to_bullets_not_idempotent (U : UnicodeData) :
  to_bullets U (u "-") = [EMPTY]
  /\ to_bullets U (join [NL] (to_bullets U (u "-"))) = []
  /\ to_bullets U (join [NL] (to_bullets U (u "-"))) <> to_bullets U (u "-").
Proof.
  assert (H1 : to_bullets U (u "-") = [EMPTY]) by (vm_compute; reflexivity).
  assert (H2 : to_bullets U (join [NL] (to_bullets U (u "-"))) = [])
    by (rewrite H1; vm_compute; reflexivity).
  repeat split; trivial.
  rewrite H2, H1. discriminate.
Qed.

(** ** The substitution engine *)

(** C1: at intensity 3 the compound ["use case"] loses its word ["use"].
    The unguarded entry [use] comes first in the level and rewrites every
    whole word ["use"], so the guarded entry [use (?!case)], which alone
    leaves ["use case"] as it is, finds nothing left to protect. *)
Theorem use_case_is_rewritten (U : UnicodeData) :
  apply_buzzwords U (u "use case") 3 = Some (u "leverage case")
  /\ Re.sub (whole_word U (ilit U (u "use ")
                           ++ [Re.NotAhead (map (ci U) (u "case"))]))
            (u "utilize") (u "use case")
     = u "use case".
Proof. split; vm_compute; reflexivity. Qed.

(** C2: the engine is cumulative.  The output at intensity 2 is the output
    at intensity 1 with the words of the second tier replaced in it, each at
    every whole-word, case-insensitive occurrence and in the order of the
    table: the second tier reads the first tier's output, not the input. *)
Theorem apply_buzzwords_cumulative (U : UnicodeData) (s : str) :
  exists out1,
    apply_buzzwords U s 1 = Some out1
    /\ apply_buzzwords U s 2 = Some (tier_2_pass U out1).
Proof.
  unfold apply_buzzwords.
  change (range 1 (1 + 1)) with [1%Z].
  change (range 1 (2 + 1)) with [1%Z; 2%Z].
  cbn [Z.leb Z.compare fold_left].
  change (nth_error (BUZZWORD_MAP_LEVELS U) (Z.to_nat 1))
    with (Some (nth 1 (BUZZWORD_MAP_LEVELS U) [])).
  change (nth_error (BUZZWORD_MAP_LEVELS U) (Z.to_nat 2))
    with (Some (nth 2 (BUZZWORD_MAP_LEVELS U) [])).
  eexists. split; [reflexivity|].
  f_equal.
Qed.

(** ** Reply suggestions *)

Lemma In_char_iff (c : char) (l : str) :
  In c l <-> existsb (char_eqb c) l = true.
Proof.
  rewrite existsb_exists. split.
  - intros H. exists c. split; [exact H | apply N.eqb_refl].
  - intros (x & Hx & He). apply N.eqb_eq in He. now subst.
Qed.

Lemma style_map_total (st : Style) :
  exists bank,
    subscript Style_beq style_map st = Some bank /\ List.length bank = 3%nat.
Proof. destruct st; eexists; split; reflexivity. Qed.

Lemma slice_to_Z_nonneg {A} (n : Z) (l : list A) :
  (0 <= n)%Z -> slice_to_Z n l = firstn (Z.to_nat n) l.
Proof.
  intros Hn. unfold slice_to_Z.
  destruct (Z.ltb_spec n 0); [lia | reflexivity].
Qed.

Lemma reply_suggestions_eq (req : ReplySuggestionsRequest) (bank : list str) :
  subscript Style_beq style_map (style req) = Some bank ->
  List.length bank = 3%nat ->
  (1 <= suggestions req)%Z ->
  reply_suggestions req
  = Some (map (medium_tweak (req_medium req))
              (firstn (Z.to_nat (Z.min (suggestions req) 3)) bank)).
Proof.
  intros Hbank Hlen Hn.
  unfold reply_suggestions.
  change (subscript Style_beq style_map neutral)
    with (Some (nth 0 (map snd style_map) [])).
  cbv beta iota.
  unfold get. rewrite Hbank, Hlen.
  change (Z.of_nat 3) with 3%Z.
  rewrite slice_to_Z_nonneg by lia.
  f_equal.
  destruct (req_medium req); cbn [Medium_beq orb medium_tweak];
    try reflexivity; now rewrite map_id.
Qed.

(** C9: with style "pushback" and two suggestions the replies are exactly
    the first two entries of the pushback bank, in the bank's order; on
    email they keep the em-dash, on slack and on teams every em-dash is
    replaced by a hyphen between spaces. *)
Theorem reply_suggestions_pushback_two (inc : str) :
  let req m :=
    {| incoming := inc; style := pushback; req_medium := m; suggestions := 2 |} in
  reply_suggestions (req email)
  = Some [u "Thanks—timeline is tight. Can we prioritize the critical path and revisit the rest next sprint?";
          u "Appreciate it. Given constraints, proposing we de-scope X to hit the target date—thoughts?"]
  /\ reply_suggestions (req slack)
     = Some [u "Thanks - timeline is tight. Can we prioritize the critical path and revisit the rest next sprint?";
             u "Appreciate it. Given constraints, proposing we de-scope X to hit the target date - thoughts?"]
  /\ reply_suggestions (req teams) = reply_suggestions (req slack)
  /\ (exists bank,
        subscript Style_beq style_map pushback = Some bank
        /\ reply_suggestions (req email) = Some (firstn 2 bank)
        /\ reply_suggestions (req slack)
           = Some (map (replace (u "—") (u " - ")) (firstn 2 bank))
        /\ Forall (fun r => In EM_DASH r) (firstn 2 bank)
        /\ Forall (fun r => ~ In EM_DASH r)
                  (map (replace (u "—") (u " - ")) (firstn 2 bank))).
Proof.
  cbv zeta. repeat split; try (vm_compute; reflexivity).
  eexists. split; [vm_compute; reflexivity|].
  split; [vm_compute; reflexivity|].
  split; [vm_compute; reflexivity|].
  split; apply Forall_forall; intros r Hr; vm_compute in Hr.
  - apply In_char_iff.
    destruct Hr as [<- | [<- | []]]; vm_compute; reflexivity.
  - intros H. apply In_char_iff in H.
    destruct Hr as [<- | [<- | []]]; vm_compute in H; discriminate H.
Qed.

(** C10, as the code has it: every style bank has exactly three entries,
    and for a requested count between 1 and 6 the replies are the first
    [min(requested, 3)] entries of the style's bank, in the bank's order,
    each passed through the medium's tweak: unchanged on email, whatsapp,
    text and doc, with the em-dash replaced on slack and teams.  There are
    never more than three replies. *)
Theorem reply_suggestions_count (req : ReplySuggestionsRequest) :
  (1 <= suggestions req <= 6)%Z ->
  exists bank replies,
    subscript Style_beq style_map (style req) = Some bank
    /\ List.length bank = 3%nat
    /\ reply_suggestions req = Some replies
    /\ replies = map (medium_tweak (req_medium req))
                     (firstn (Z.to_nat (Z.min (suggestions req) 3)) bank)
    /\ List.length replies = Z.to_nat (Z.min (suggestions req) 3)
    /\ (List.length replies <= 3)%nat
    /\ (req_medium req <> slack -> req_medium req <> teams ->
        prefix_of replies bank).
Proof.
  intros [Hlo Hhi].
  destruct (style_map_total (style req)) as (bank & Hbank & Hlen).
  exists bank. eexists.
  split; [exact Hbank|]. split; [exact Hlen|].
  split; [apply (reply_suggestions_eq req Hbank Hlen Hlo)|].
  split; [reflexivity|].
  assert (Hl : List.length
                 (map (medium_tweak (req_medium req))
                      (firstn (Z.to_nat (Z.min (suggestions req) 3)) bank))
               = Z.to_nat (Z.min (suggestions req) 3)).
  { rewrite length_map, length_firstn, Hlen. lia. }
  split; [exact Hl|]. split; [rewrite Hl; lia|].
  intros Hs Ht.
  exists (skipn (Z.to_nat (Z.min (suggestions req) 3)) bank).
  replace (map (medium_tweak (req_medium req))
               (firstn (Z.to_nat (Z.min (suggestions req) 3)) bank))
    with (firstn (Z.to_nat (Z.min (suggestions req) 3)) bank).
  - symmetry. apply firstn_skipn.
  - destruct (req_medium req); try congruence; cbn [medium_tweak];
      now rewrite map_id.
Qed.

Lemma reply_suggestions_count_witness :
  let req := {| incoming := u "ok?"; style := clarify; req_medium := slack;
                suggestions := 5 |} in
  (1 <= suggestions req <= 6)%Z
  /\ exists bank replies,
       subscript Style_beq style_map (style req) = Some bank
       /\ List.length bank = 3%nat
       /\ reply_suggestions req = Some replies
       /\ replies = map (medium_tweak (req_medium req))
                        (firstn (Z.to_nat (Z.min (suggestions req) 3)) bank)
       /\ List.length replies = Z.to_nat (Z.min (suggestions req) 3)
       /\ (List.length replies <= 3)%nat
       /\ (req_medium req <> slack -> req_medium req <> teams ->
           prefix_of replies bank).
Proof.
  cbv zeta. split.
  - cbn. lia.
  - apply (reply_suggestions_count
             {| incoming := u "ok?"; style := clarify; req_medium := slack;
                suggestions := 5 |}).
    cbn. lia.
Defined.

(** C10 as stated fails on the default medium: with style "neutral" on
    slack one reply is returned, the first entry of the bank with its
    em-dash rewritten, which is no entry of the bank. *)
Lemma reply_suggestions_not_bank_prefix :
  reply_suggestions
    {| incoming := u "hi"; style := neutral; req_medium := slack; suggestions := 1 |}
  = Some [u "Thanks for the update - got it."]
  /\ ~ replies_prefix_of_bank
         {| incoming := u "hi"; style := neutral; req_medium := slack;
            suggestions := 1 |}.
Proof.
  split; [vm_compute; reflexivity|].
  intros (replies & bank & Hr & Hb & _ & rest & Hp).
  vm_compute in Hr. vm_compute in Hb.
  injection Hr as <-. injection Hb as <-.
  vm_compute in Hp. discriminate Hp.
Qed.

(** ** Phrase selection *)

Lemma choice_ok {A} (items : list A) (g : Rng) :
  items <> [] ->
  exists x, choice items g = Some (x, fun i => g (S i)) /\ In x items.
Proof.
  intros Hne. unfold choice.
  destruct items as [|a l]; [congruence|].
  set (items := a :: l).
  assert (Hlt : (g 0 mod List.length items < List.length items)%nat)
    by (apply Nat.mod_upper_bound; discriminate).
  destruct (nth_error items (g 0 mod List.length items)) as [x|] eqn:E.
  - exists x. split; [reflexivity|]. eapply nth_error_In; eassumption.
  - apply nth_error_None in E. lia.
Qed.

(** [pick] never raises: it returns an entry of the bank, or the empty
    string when the bank is empty. *)
Lemma pick_ok (items : list str) (g : Rng) :
  exists x g',
    pick items g = Some (x, g')
    /\ (In x items \/ (items = [] /\ x = EMPTY)).
Proof.
  unfold pick. destruct items as [|a l].
  - exists EMPTY, g. split; [reflexivity|]. right. split; reflexivity.
  - destruct (@choice_ok _ (a :: l) g) as (x & Hx & Hin); [discriminate|].
    exists x. eexists. split; [exact Hx|]. left. exact Hin.
Qed.

Lemma sign_off_doc (g : Rng) :
  sign_off doc g = Some (EMPTY, fun i => g (S i)).
Proof. reflexivity. Qed.

Lemma subject_prefixes_shape (tone : Tone) :
  forallb (fun p => match p with
                    | c :: _ => negb (isspace c)
                    | [] => false
                    end)
          (subject_prefixes tone) = true.
Proof. destruct tone; vm_compute; reflexivity. Qed.

Lemma subject_prefix_head (tone : Tone) (p : str) :
  In p (subject_prefixes tone) ->
  exists c t, p = c :: t /\ isspace c = false.
Proof.
  intros Hin.
  pose proof (subject_prefixes_shape tone) as H.
  rewrite forallb_forall in H. specialize (H p Hin).
  destruct p as [|c t]; [discriminate|].
  exists c, t. split; [reflexivity|].
  now apply negb_true_iff in H.
Qed.

(** ** Stripping *)

Lemma lstrip_keeps_last (p : char -> bool) (x : str) (c : char) :
  p c = false -> lstrip p (x ++ [c]) <> [].
Proof.
  intros Hc. induction x as [|a x IH]; cbn.
  - rewrite Hc. discriminate.
  - destruct (p a); [exact IH | discriminate].
Qed.

Lemma strip_nonempty (c : char) (t : str) :
  isspace c = false -> strip (c :: t) <> [].
Proof.
  intros Hc. unfold strip, strip_by, rstrip.
  cbn [lstrip]. rewrite Hc.
  intros H. apply (f_equal (@rev char)) in H.
  rewrite rev_involutive in H. cbn [rev] in H.
  destruct (rev t) as [|b r] eqn:E.
  - cbn in H. rewrite Hc in H. discriminate.
  - assert (Hlast : exists y z, (b :: r) ++ [c] = y ++ [z] /\ isspace z = false).
    { exists (b :: r), c. split; [reflexivity | exact Hc]. }
    destruct Hlast as (y & z & Hy & Hz).
    rewrite Hy in H. now apply (lstrip_keeps_last isspace y) in Hz.
Qed.

Lemma lstrip_suffix (p : char -> bool) (s : str) :
  exists pre, s = pre ++ lstrip p s.
Proof.
  induction s as [|c t [pre IH]]; cbn.
  - now exists [].
  - destruct (p c).
    + exists (c :: pre). cbn. now rewrite <- IH.
    + now exists [].
Qed.

Lemma lstrip_head (p : char -> bool) (s : str) (c : char) :
  hd_error (lstrip p s) = Some c -> p c = false.
Proof.
  induction s as [|a t IH]; cbn; [discriminate|].
  destruct (p a) eqn:E; [exact IH|].
  cbn. intros [= <-]. exact E.
Qed.

(** ** The two substitutions of [make_subject] *)

Lemma star_then_run (p : char -> bool) (prev : option char) (s : str) :
  Re.star_then p (Re.match_atoms []) prev s = Some (run p s).
Proof.
  revert prev. induction s as [|c t IH]; intros prev; cbn; [reflexivity|].
  destruct (p c); [|reflexivity].
  now rewrite IH.
Qed.

Lemma skipn_run (p : char -> bool) (s : str) : skipn (run p s) s = lstrip p s.
Proof.
  induction s as [|c t IH]; cbn; [reflexivity|].
  destruct (p c); [exact IH | reflexivity].
Qed.

Lemma sub_leading_inside (repl : str) (s : str) (c0 : char) :
  Re.sub_from LEADING_MARKS repl 0 (Some c0) s = s.
Proof.
  revert c0. induction s as [|c t IH]; intros c0; cbn; [reflexivity|].
  now rewrite IH.
Qed.

Lemma sub_leading_skip (repl : str) (k : nat) (s : str) (c0 : char) :
  Re.sub_from LEADING_MARKS repl k (Some c0) s = skipn k s.
Proof.
  revert k c0. induction s as [|c t IH]; intros k c0.
  - now destruct k.
  - destruct k as [|k].
    + apply sub_leading_inside.
    + cbn. apply IH.
Qed.

(** [re.sub(r"^[-•\s]+", "", s)] removes the leading run of dashes, bullet
    markers and white space. *)
Lemma sub_leading_marks (s : str) :
  Re.sub LEADING_MARKS EMPTY s = lstrip leading_mark s.
Proof.
  unfold Re.sub. destruct s as [|c t]; [reflexivity|].
  cbn -[leading_mark].
  destruct (leading_mark c) eqn:E.
  - rewrite star_then_run. cbn -[leading_mark].
    rewrite sub_leading_skip. apply skipn_run.
  - cbn -[leading_mark]. now rewrite sub_leading_inside.
Qed.

Lemma match_trailing_period (prev : option char) (c : char) (t : str) :
  Re.match_re TRAILING_PERIOD prev (c :: t)
  = if char_eqb PERIOD c && at_end t then Some 1%nat else None.
Proof.
  cbn -[char_eqb].
  destruct (char_eqb PERIOD c); [|reflexivity].
  destruct t as [|x [|y t']]; cbn -[char_eqb]; try reflexivity.
  now destruct (char_eqb x NL).
Qed.

Lemma sub_from_unfold (r : Re.regex) (repl : str) (prev : option char)
    (c : char) (t : str) :
  Re.sub_from r repl 0 prev (c :: t)
  = match Re.match_re r prev (c :: t) with
    | Some (S n) => repl ++ Re.sub_from r repl n (Some c) t
    | _ => c :: Re.sub_from r repl 0 (Some c) t
    end.
Proof. reflexivity. Qed.

(** [re.sub(r"\.$", "", s)] removes the period at the end of [s], or the one
    before its final newline. *)
Lemma sub_trailing_period (s : str) (prev : option char) :
  Re.sub_from TRAILING_PERIOD EMPTY 0 prev s = drop_final_period s.
Proof.
  revert prev. induction s as [|c t IH]; intros prev; [reflexivity|].
  rewrite sub_from_unfold, match_trailing_period.
  cbn [drop_final_period].
  destruct (char_eqb PERIOD c && at_end t) eqn:E.
  - apply andb_true_iff in E. destruct E as [_ Et].
    rewrite (IH (Some c)).
    destruct t as [|x [|y t']]; cbn in Et; try discriminate; [reflexivity|].
    apply N.eqb_eq in Et. subst x. reflexivity.
  - now rewrite (IH (Some c)).
Qed.

Lemma subject_core_cleaned_eq (bullets : list str) :
  subject_core_cleaned bullets
  = drop_final_period (lstrip leading_mark (subject_core_source bullets)).
Proof.
  unfold subject_core_cleaned.
  rewrite sub_leading_marks. apply sub_trailing_period.
Qed.

Lemma drop_final_period_nil (s : str) :
  drop_final_period s = [] -> s = [] \/ s = [PERIOD].
Proof.
  destruct s as [|c t]; [now left|].
  cbn -[char_eqb].
  destruct (char_eqb PERIOD c) eqn:Ec; cbn -[char_eqb].
  - destruct (at_end t) eqn:Et; [|discriminate].
    intros ->. right. apply N.eqb_eq in Ec. now subst c.
  - discriminate.
Qed.

(** The cleaned string ends with a period only if the original ended with
    two. *)
Lemma drop_final_period_ends (s y : str) :
  drop_final_period s = y ++ [PERIOD] -> s = y ++ [PERIOD; PERIOD].
Proof.
  revert y. induction s as [|c t IH]; intros y.
  - destruct y; discriminate.
  - cbn -[char_eqb].
    destruct (char_eqb PERIOD c && at_end t) eqn:E.
    + apply andb_true_iff in E. destruct E as [_ Et].
      intros ->.
      destruct y as [|a [|b y']]; cbn in Et; discriminate.
    + destruct y as [|a y]; cbn -[char_eqb].
      * intros [= -> Ht].
        apply drop_final_period_nil in Ht. destruct Ht as [-> | ->].
        -- discriminate E.
        -- reflexivity.
      * intros [= -> Ht]. now rewrite (IH y Ht).
Qed.

Lemma drop_final_period_head (s : str) (c : char) :
  hd_error (drop_final_period s) = Some c ->
  hd_error s = Some c \/ c = NL.
Proof.
  destruct s as [|a t]; [discriminate|].
  cbn -[char_eqb].
  destruct (char_eqb PERIOD a && at_end t) eqn:E.
  - apply andb_true_iff in E. destruct E as [_ Et].
    destruct t as [|x [|]]; cbn in Et; try discriminate.
    cbn. intros [= <-]. right. now apply N.eqb_eq in Et.
  - cbn. intros [= <-]. now left.
Qed.

(** ** The subject line *)

Lemma subject_prefixes_nonempty (tone : Tone) : subject_prefixes tone <> [].
Proof. destruct tone; discriminate. Qed.

Lemma make_subject_eq (tone : Tone) (bullets : list str) (g : Rng) :
  exists prefix,
    In prefix (subject_prefixes tone)
    /\ make_subject tone bullets g
       = Some (strip (prefix ++ u " " ++ firstn 72 (subject_core_cleaned bullets)),
               fun i => g (S i)).
Proof.
  destruct (choice_ok g (subject_prefixes_nonempty tone)) as (prefix & Hc & Hin).
  exists prefix. split; [exact Hin|].
  unfold make_subject, bind, pick.
  fold (subject_prefixes tone).
  destruct (subject_prefixes tone) as [|a l] eqn:E.
  - now destruct (subject_prefixes_nonempty tone).
  - cbn [truthy_list]. rewrite Hc. reflexivity.
Qed.

Lemma make_subject_nonempty (tone : Tone) (bullets : list str) (g : Rng) :
  exists s g', make_subject tone bullets g = Some (s, g') /\ s <> EMPTY.
Proof.
  destruct (make_subject_eq tone bullets g) as (prefix & Hin & Heq).
  destruct (subject_prefix_head tone prefix Hin) as (c & t & -> & Hc).
  eexists. eexists. split; [exact Heq|].
  apply strip_nonempty. exact Hc.
Qed.

Lemma ends_with_last (y : str) (c : char) :
  ends_with (y ++ [c]) (u ".") -> c = PERIOD.
Proof.
  intros [x H]. change (u ".") with [PERIOD] in H.
  apply app_inj_tail in H. now destruct H.
Qed.

(** A subject that ends with a period is not one the specification
    describes, whatever is taken for its prefix and its core. *)
Lemma final_period_not_specified (tone : Tone) (subj : str) :
  ends_with subj (u ".") -> ~ subject_as_specified tone subj.
Proof.
  intros Hend (prefix & core & _ & -> & _ & _ & _ & Hcore).
  destruct core as [|c core' _] using rev_ind.
  - rewrite app_nil_r in Hend. change (u " ") with [SPACE] in Hend.
    apply ends_with_last in Hend. discriminate Hend.
  - apply Hcore. exists core'.
    rewrite !app_assoc in Hend. apply ends_with_last in Hend. now subst c.
Qed.

(** C4 as stated fails in two ways.  The bullet ["a.."] keeps one of its
    two periods, so the subject is ["Update: a."].  A bullet of 71 letters,
    a period and more text is cut behind the period, so the subject ends
    with that period.  No core without a trailing period gives either
    subject. *)
Lemma make_subject_keeps_a_period :
  make_subject formal [u "a.."] zero_draws
  = Some (u "Update: a.", fun i => zero_draws (S i))
  /\ ~ subject_as_specified formal (u "Update: a.")
  /\ make_subject formal [repeat 120%N 71 ++ u ". and more"] zero_draws
     = Some (u "Update: " ++ repeat 120%N 71 ++ u ".", fun i => zero_draws (S i))
  /\ ~ subject_as_specified formal (u "Update: " ++ repeat 120%N 71 ++ u ".").
Proof.
  split; [reflexivity|]. split; [|split].
  - apply final_period_not_specified. exists (u "Update: a"). reflexivity.
  - vm_compute. reflexivity.
  - apply final_period_not_specified.
    exists (u "Update: " ++ repeat 120%N 71). now rewrite <- app_assoc.
Qed.

(** ** The message composer *)

Lemma OPENERS_total (tone : Tone) :
  exists l, subscript Tone_beq OPENERS tone = Some l.
Proof. destruct tone; eexists; reflexivity. Qed.

Lemma LOCALE_FLAVOR_generic :
  subscript Locale_beq LOCALE_FLAVOR Generic
  = Some [ (u "politeness", []); (u "greetings", []) ].
Proof. reflexivity. Qed.

(** The composer never raises before the sign-off: it draws an opener, a
    greeting and a politeness phrase and assembles the body from them. *)
Lemma body_before_sign_off_ok (U : UnicodeData) (txt : str) (tone : Tone)
    (med : Medium) (len : Length) (loc : Locale) (include_bullets : bool)
    (g : Rng) :
  exists greeting opener politeness g1,
    body_before_sign_off U txt tone med len loc include_bullets g
    = Some ((to_bullets U txt,
             body_assembly txt (to_bullets U txt) tone med len include_bullets
               greeting opener politeness),
            g1).
Proof.
  unfold body_before_sign_off, bind.
  destruct (OPENERS_total tone) as [l Hl]. rewrite Hl.
  cbn [lift ret].
  destruct (pick_ok l g) as (opener & g1 & Ho & _). rewrite Ho.
  rewrite LOCALE_FLAVOR_generic. cbn [lift ret].
  match goal with
  | |- context [pick ?b g1] =>
      destruct (pick_ok b g1) as (greeting & g2 & Hg & _); rewrite Hg
  end.
  match goal with
  | |- context [pick ?b g2] =>
      destruct (pick_ok b g2) as (politeness & g3 & Hp & _); rewrite Hp
  end.
  exists greeting, opener, politeness, g3. reflexivity.
Qed.

Lemma SIGN_OFF_nonempty (med : Medium) : get Medium_beq SIGN_OFF med [EMPTY] <> [].
Proof. destruct med; discriminate. Qed.

Lemma sign_off_ok (med : Medium) (g : Rng) :
  exists s_off,
    sign_off med g = Some (s_off, fun i => g (S i))
    /\ In s_off (get Medium_beq SIGN_OFF med [EMPTY]).
Proof.
  destruct (choice_ok g (SIGN_OFF_nonempty med)) as (x & Hx & Hin).
  exists x. split; [|exact Hin].
  unfold sign_off, pick.
  destruct (get Medium_beq SIGN_OFF med [EMPTY]) eqn:E.
  - now destruct (SIGN_OFF_nonempty med).
  - exact Hx.
Qed.

(** The message and the subject of [compose_message], for any draws. *)
Lemma compose_message_eq (U : UnicodeData) (txt : str) (tone : Tone)
    (med : Medium) (len : Length) (loc : Locale)
    (include_bullets add_subject : bool) (g : Rng) :
  exists greeting opener politeness s_off subj g',
    let parts :=
      body_assembly txt (to_bullets U txt) tone med len include_bullets
        greeting opener politeness in
    compose_message U txt tone med len loc include_bullets add_subject g
    = Some ({| subject := subj;
               message := join [NL; NL]
                            (filter truthy
                               (if truthy s_off then parts ++ [s_off] else parts)) |},
            g')
    /\ In s_off (get Medium_beq SIGN_OFF med [EMPTY])
    /\ (if Medium_beq med email && add_subject
        then exists s, subj = Some s /\ s <> EMPTY
        else subj = None).
Proof.
  destruct (body_before_sign_off_ok U txt tone med len loc include_bullets g)
    as (greeting & opener & politeness & g1 & Hb).
  destruct (sign_off_ok med g1) as (s_off & Hs & Hin).
  exists greeting, opener, politeness, s_off.
  unfold compose_message, bind. rewrite Hb. cbn [fst snd]. rewrite Hs.
  destruct (Medium_beq med email && add_subject).
  - destruct (make_subject_nonempty tone (to_bullets U txt) (fun i => g1 (S i)))
      as (s & g3 & Hm & Hne).
    rewrite Hm. cbn [ret].
    exists (Some s), g3. cbv zeta.
    split; [reflexivity|]. split; [exact Hin|].
    exists s. split; [reflexivity | exact Hne].
  - cbn [ret].
    exists None. eexists. cbv zeta.
    split; [reflexivity|]. split; [exact Hin | reflexivity].
Qed.

(** C5: for every parameter set and every sequence of draws the composer
    returns a variant whose subject is present exactly when the medium is
    email and [add_subject] is true, and a subject that is present is never
    the empty string. *)
Theorem subject_iff_email_and_add_subject (U : UnicodeData) (txt : str)
    (tone : Tone) (med : Medium) (len : Length) (loc : Locale)
    (include_bullets add_subject : bool) (g : Rng) :
  exists v g',
    compose_message U txt tone med len loc include_bullets add_subject g
    = Some (v, g')
    /\ (subject v <> None <-> (med = email /\ add_subject = true))
    /\ subject v <> Some EMPTY.
Proof.
  destruct (compose_message_eq U txt tone med len loc include_bullets
              add_subject g)
    as (greeting & opener & politeness & s_off & subj & g' & Heq & _ & Hs).
  cbv zeta in Heq.
  eexists. exists g'. split; [exact Heq|].
  cbn [subject].
  destruct (Medium_beq med email && add_subject) eqn:E.
  - destruct Hs as (s & -> & Hne).
    apply andb_true_iff in E. destruct E as [Em Ea].
    split; [split|].
    + intros _. split; [|exact Ea]. now destruct med.
    + discriminate.
    + intros [= H]. now apply Hne.
  - subst subj. split; [split|].
    + congruence.
    + intros [-> ->]. discriminate E.
    + discriminate.
Qed.

Lemma join_contains (sep x : str) (l : list str) :
  In x l -> contains (join sep l) x.
Proof.
  induction l as [|p l IH]; [contradiction|].
  intros [-> | Hin].
  - destruct l as [|q r].
    + exists [], []. cbn. now rewrite app_nil_r.
    + exists [], (sep ++ join sep (q :: r)). reflexivity.
  - destruct (IH Hin) as (pre & post & Heq).
    destruct l as [|q r]; [contradiction|].
    exists (p ++ sep ++ pre), post.
    change (join sep (p :: q :: r)) with (p ++ sep ++ join sep (q :: r)).
    rewrite Heq. now rewrite <- !app_assoc.
Qed.

(** The body ends with the core sentence, followed by the politeness phrase
    when there is one. *)
Lemma body_assembly_tail (txt : str) (bullets : list str) (tone : Tone)
    (med : Medium) (len : Length) (include_bullets : bool)
    (greeting opener politeness : str) :
  exists front,
    body_assembly txt bullets tone med len include_bullets greeting opener
      politeness
    = front ++ [core_sentence len (summary_of txt bullets) bullets]
      ++ (if truthy politeness then [politeness] else []).
Proof.
  unfold body_assembly, summary_of. cbv zeta.
  eexists. destruct (truthy politeness).
  - rewrite <- app_assoc. reflexivity.
  - cbn [app]. reflexivity.
Qed.

Lemma bullet_block_in_body (txt : str) (bullets : list str) (med : Medium)
    (len : Length) (include_bullets : bool) (greeting opener politeness : str) :
  in_email_doc med = true ->
  bullets <> [] ->
  In (bullet_block bullets)
     (body_assembly txt bullets executive med len include_bullets greeting
        opener politeness).
Proof.
  intros Hmed Hne.
  unfold body_assembly. cbv zeta. rewrite Hmed.
  cbn [Tone_beq andb]. rewrite orb_true_r.
  destruct bullets as [|b bs]; [congruence|].
  cbn [truthy_list].
  fold (bullet_block (b :: bs)).
  destruct (truthy politeness); rewrite ?in_app_iff; cbn [In]; tauto.
Qed.

Lemma bullet_block_truthy (bullets : list str) :
  bullets <> [] -> truthy (bullet_block bullets) = true.
Proof.
  destruct bullets as [|b bs]; [congruence|]. intros _.
  unfold bullet_block.
  change (firstn 5 (b :: bs)) with (b :: firstn 4 bs).
  cbn [map].
  destruct (map (fun b0 => u "• " ++ b0) (firstn 4 bs)); reflexivity.
Qed.

(** C6: on the medium "doc", whatever the draws, the sign-off drawn is the
    empty string and no sign-off part enters the message: the message is
    the blank-line join of the non-empty parts assembled before the
    sign-off, the last of which is the core sentence or the politeness
    phrase. *)
Theorem doc_has_no_sign_off (U : UnicodeData) (txt : str) (tone : Tone)
    (len : Length) (loc : Locale) (include_bullets add_subject : bool)
    (g : Rng) :
  exists greeting opener politeness front v g1 g2,
    let bullets := to_bullets U txt in
    let parts :=
      body_assembly txt bullets tone doc len include_bullets greeting opener
        politeness in
    body_before_sign_off U txt tone doc len loc include_bullets g
    = Some ((bullets, parts), g1)
    /\ sign_off doc g1 = Some (EMPTY, g2)
    /\ compose_message U txt tone doc len loc include_bullets add_subject g
       = Some (v, g2)
    /\ message v = join [NL; NL] (filter truthy parts)
    /\ parts = front ++ [core_sentence len (summary_of txt bullets) bullets]
               ++ (if truthy politeness then [politeness] else []).
Proof.
  destruct (body_before_sign_off_ok U txt tone doc len loc include_bullets g)
    as (greeting & opener & politeness & g1 & Hb).
  destruct (body_assembly_tail txt (to_bullets U txt) tone doc len
              include_bullets greeting opener politeness) as [front Hf].
  exists greeting, opener, politeness, front.
  eexists. exists g1, (fun i => g1 (S i)). cbv zeta.
  split; [exact Hb|]. split; [apply sign_off_doc|].
  split; [|split; [|exact Hf]].
  - unfold compose_message, bind. rewrite Hb, sign_off_doc.
    cbn [fst snd truthy EMPTY Medium_beq andb ret]. reflexivity.
  - reflexivity.
Qed.

(** C7: with tone "executive" on email or doc, a text that yields at least
    one bullet has its bullet block in the message, whether
    [include_bullets] is set or not: the block is one of the blank-line
    separated parts of the message, and it is made of at most the first
    five bullets, each behind a bullet marker, joined by newlines. *)
Theorem executive_bullet_block (U : UnicodeData) (txt : str) (med : Medium)
    (len : Length) (loc : Locale) (include_bullets add_subject : bool)
    (g : Rng) :
  med = email \/ med = doc ->
  to_bullets U txt <> [] ->
  exists v g',
    compose_message U txt executive med len loc include_bullets add_subject g
    = Some (v, g')
    /\ let block :=
         join [NL] (map (fun b => u "• " ++ b) (firstn 5 (to_bullets U txt))) in
       (exists parts, message v = join [NL; NL] parts /\ In block parts)
       /\ contains (message v) block
       /\ block <> EMPTY
       /\ (List.length (firstn 5 (to_bullets U txt)) <= 5)%nat.
Proof.
  intros Hmed Hne.
  assert (Hmed' : in_email_doc med = true) by (destruct Hmed; subst; reflexivity).
  destruct (compose_message_eq U txt executive med len loc include_bullets
              add_subject g)
    as (greeting & opener & politeness & s_off & subj & g' & Heq & _ & _).
  cbv zeta in Heq.
  eexists. exists g'. split; [exact Heq|].
  cbv zeta. cbn [message].
  fold (bullet_block (to_bullets U txt)).
  pose proof (bullet_block_in_body txt med len include_bullets greeting opener
                politeness Hmed' Hne) as Hin.
  pose proof (bullet_block_truthy Hne) as Ht.
  match goal with
  | |- (exists parts, join _ ?l = _ /\ _) /\ _ =>
      assert (Hin' : In (bullet_block (to_bullets U txt)) l)
  end.
  { apply filter_In. split; [|exact Ht].
    destruct (truthy s_off); [apply in_or_app; left|]; exact Hin. }
  split; [eexists; split; [reflexivity | exact Hin']|].
  split; [apply join_contains; exact Hin'|].
  split.
  - intros H. rewrite H in Ht. discriminate Ht.
  - apply firstn_le_length.
Qed.

Lemma executive_bullet_block_witness :
  (email = email \/ email = doc)
  /\ to_bullets ascii_tables (u "Ship the report; then rest") <> []
  /\ exists v g',
       compose_message ascii_tables (u "Ship the report; then rest") executive
         email short Generic false false zero_draws
       = Some (v, g')
       /\ contains (message v)
            (join [NL] (map (fun b => u "• " ++ b)
                          (firstn 5 (to_bullets ascii_tables
                                       (u "Ship the report; then rest"))))).
Proof.
  assert (H1 : email = email \/ email = doc) by (left; reflexivity).
  assert (H2 : to_bullets ascii_tables (u "Ship the report; then rest") <> [])
    by (vm_compute; discriminate).
  split; [exact H1|]. split; [exact H2|].
  destruct (@executive_bullet_block ascii_tables
              (u "Ship the report; then rest") email short Generic false false
              zero_draws H1 H2)
    as (v & g' & Heq & _ & Hc & _).
  exists v, g'. split; [exact Heq | exact Hc].
Defined.

(** ** No pattern of the program matches the empty string *)

Lemma match_atoms_char_first (atoms : list Re.atom) (prev : option char)
    (s : str) :
  starts_with_char atoms = true -> Re.match_atoms atoms prev s <> Some 0%nat.
Proof.
  destruct atoms as [|[p|p|p|w|w| |] rest]; try discriminate; intros _.
  - cbn. destruct s as [|c t]; [discriminate|].
    destruct (p c); [|discriminate].
    destruct (Re.match_atoms rest (Some c) t); discriminate.
  - cbn. destruct s as [|c t]; [discriminate|].
    destruct (p c); [|discriminate].
    destruct (Re.star_then p (Re.match_atoms rest) (Some c) t); discriminate.
Qed.

Lemma whole_word_nonempty (U : UnicodeData) (pat : list Re.atom)
    (prev : option char) (s : str) :
  starts_with_char pat = true ->
  Re.match_re (whole_word U pat) prev s <> Some 0%nat.
Proof.
  intros Hp. unfold whole_word. cbn [Re.match_re app Re.match_atoms].
  destruct (xorb _ _); [|discriminate].
  pose proof (@match_atoms_char_first (pat ++ [Re.WordB (is_word U)]) prev s) as H.
  destruct (Re.match_atoms (pat ++ [Re.WordB (is_word U)]) prev s) as [n|];
    [|discriminate].
  intros [= ->]. apply H; [|reflexivity].
  destruct pat as [|[ | | | | | | ] ?]; try discriminate; reflexivity.
Qed.

Lemma buzzword_patterns_char_first (U : UnicodeData) :
  forallb (forallb (fun pr => starts_with_char (fst pr))) (BUZZWORD_MAP_LEVELS U)
  = true.
Proof. reflexivity. Qed.

(** Every substitution of [apply_buzzwords] consumes at least one character
    where it matches. *)
Lemma buzzword_matches_nonempty (U : UnicodeData) (lvl : list (list Re.atom * str))
    (pat : list Re.atom) (repl : str) (prev : option char) (s : str) :
  In lvl (BUZZWORD_MAP_LEVELS U) -> In (pat, repl) lvl ->
  Re.match_re (whole_word U pat) prev s <> Some 0%nat.
Proof.
  intros Hl Hp. apply whole_word_nonempty.
  pose proof (buzzword_patterns_char_first U) as H.
  rewrite forallb_forall in H. specialize (H lvl Hl).
  rewrite forallb_forall in H. exact (H (pat, repl) Hp).
Qed.

Lemma match_bullet_split (prev : option char) (c : char) (t : str) :
  Re.match_re BULLET_SPLIT prev (c :: t) = sep_len c t.
Proof.
  unfold sep_len, window. cbn -[char_eqb isspace].
  destruct (char_eqb NL c); [reflexivity|].
  destruct (char_eqb SEMICOLON c); [reflexivity|].
  destruct (isspace c); [|reflexivity].
  destruct t as [|d [|e t']]; cbn -[char_eqb isspace]; try reflexivity.
  - now destruct (char_eqb HYPHEN d).
  - destruct (char_eqb HYPHEN d); [|reflexivity].
    now destruct (isspace e).
Qed.

Lemma subject_patterns_nonempty (prev : option char) (s : str) :
  Re.match_re BULLET_SPLIT prev s <> Some 0%nat
  /\ Re.match_re LEADING_MARKS prev s <> Some 0%nat
  /\ Re.match_re TRAILING_PERIOD prev s <> Some 0%nat.
Proof.
  split; [|split].
  - destruct s as [|c t]; [discriminate|].
    rewrite match_bullet_split. unfold sep_len.
    repeat match goal with |- context [if ?b then _ else _] => destruct b end;
      discriminate.
  - cbn -[leading_mark]. destruct prev; [discriminate|].
    destruct s as [|c t]; [discriminate|].
    destruct (leading_mark c); [|discriminate].
    destruct (Re.star_then _ _ _ _); discriminate.
  - destruct s as [|c t]; [discriminate|].
    rewrite match_trailing_period.
    destruct (_ && _); discriminate.
Qed.

(** ** Reading a bullet list back *)

Lemma split_from_unfold (r : Re.regex) (prev : option char) (c : char)
    (t : str) :
  Re.split_from r 0 prev (c :: t)
  = match Re.match_re r prev (c :: t) with
    | Some (S n) => [] :: Re.split_from r n (Some c) t
    | _ =>
        match Re.split_from r 0 (Some c) t with
        | f :: fs => (c :: f) :: fs
        | [] => [[c]]
        end
    end.
Proof. reflexivity. Qed.

Lemma window_prefix (c : char) (f rest : str) :
  window c (f ++ rest) = false -> window c f = false.
Proof.
  unfold window. destruct (isspace c); [|reflexivity].
  destruct f as [|d [|e f']]; trivial.
Qed.

(** Every fragment of the split is calm, and the first one is a prefix of
    the text still to be read. *)
Lemma split_from_shape (t : str) :
  forall (k : nat) (prev : option char),
  exists f fs,
    Re.split_from BULLET_SPLIT k prev t = f :: fs
    /\ prefix_of f (skipn k t)
    /\ Forall (fun x => calm x = true) (f :: fs).
Proof.
  induction t as [|c t IH]; intros k prev.
  - exists [], []. split; [reflexivity|].
    split; [exists []; now destruct k | repeat constructor].
  - destruct k as [|k].
    + rewrite split_from_unfold, match_bullet_split.
      destruct (sep_len c t) as [[|n]|] eqn:E.
      * unfold sep_len in E.
        repeat match type of E with
               | (if ?b then _ else _) = _ => destruct b
               end; discriminate.
      * destruct (IH n (Some c)) as (f & fs & Hs & _ & Hc).
        exists [], (f :: fs). rewrite Hs.
        split; [reflexivity|].
        split; [now exists (c :: t) | now constructor].
      * destruct (IH 0%nat (Some c)) as (f & fs & Hs & [rest Hp] & Hc).
        exists (c :: f), fs. rewrite Hs.
        split; [reflexivity|].
        cbn [skipn] in Hp |- *.
        split; [exists rest; cbn; now rewrite <- Hp|].
        apply Forall_cons_iff in Hc. destruct Hc as [Hf Hfs].
        constructor; [|exact Hfs].
        unfold sep_len in E. cbn [calm].
        destruct (char_eqb NL c); [discriminate|].
        destruct (char_eqb SEMICOLON c); [discriminate|].
        destruct (window c t) eqn:W; [discriminate|].
        rewrite Hp in W. apply window_prefix in W.
        rewrite W, Hf. reflexivity.
    + cbn [Re.split_from skipn]. apply IH.
Qed.

Lemma split_calm (s f : str) :
  In f (Re.split BULLET_SPLIT s) -> calm f = true.
Proof.
  unfold Re.split.
  destruct (split_from_shape s 0 None) as (f0 & fs & Hs & _ & Hc).
  rewrite Hs. rewrite Forall_forall in Hc. apply Hc.
Qed.

Lemma calm_tail (c : char) (t : str) : calm (c :: t) = true -> calm t = true.
Proof.
  cbn [calm]. intros H. now apply andb_true_iff in H.
Qed.

Lemma calm_suffix (x y : str) : calm (x ++ y) = true -> calm y = true.
Proof.
  induction x as [|c x IH]; [trivial|].
  intros H. apply IH. exact (calm_tail _ _ H).
Qed.

Lemma calm_prefix (x y : str) : calm (x ++ y) = true -> calm x = true.
Proof.
  induction x as [|c x IH]; [reflexivity|].
  cbn [app calm]. intros H.
  apply andb_true_iff in H. destruct H as [H Ht].
  apply andb_true_iff in H. destruct H as [H W].
  rewrite H, (IH Ht).
  apply negb_true_iff in W. apply window_prefix in W. now rewrite W.
Qed.

(** A readable bullet in front of the end of the text, or of a newline, is
    one fragment of the split. *)
Lemma split_readable (b : str) :
  forall (prev : option char) (follow : list str),
  readable b ->
  Re.split_from BULLET_SPLIT 0 prev
    (b ++ match follow with [] => [] | _ :: _ => NL :: join [NL] follow end)
  = b :: match follow with
         | [] => []
         | _ :: _ => Re.split_from BULLET_SPLIT 0 (Some NL) (join [NL] follow)
         end.
Proof.
  induction b as [|c t IH]; intros prev follow [Hcalm Hlast].
  - destruct follow as [|x l]; [reflexivity|].
    cbn [app]. rewrite split_from_unfold, match_bullet_split. reflexivity.
  - cbn [app]. rewrite split_from_unfold, match_bullet_split.
    assert (Ht : readable t).
    { split; [exact (calm_tail _ _ Hcalm)|].
      intros y d ->. apply (Hlast (c :: y) d). reflexivity. }
    rewrite (IH (Some c) follow Ht).
    cbn [calm] in Hcalm.
    apply andb_true_iff in Hcalm. destruct Hcalm as [H _].
    apply andb_true_iff in H. destruct H as [H W].
    apply andb_true_iff in H. destruct H as [Hn Hs].
    apply negb_true_iff in Hn, Hs, W.
    unfold sep_len. rewrite Hn, Hs.
    assert (W' : window c (t ++ match follow with
                                  | [] => []
                                  | _ :: _ => NL :: join [NL] follow
                                  end) = false).
    { unfold window in W |- *. destruct (isspace c); [|reflexivity].
      cbn [andb] in W |- *.
      destruct t as [|d [|e t']].
      - destruct follow as [|x l]; [reflexivity|]. cbn [app].
        destruct (join [NL] (x :: l)); reflexivity.
      - destruct follow as [|x l]; [reflexivity|]. cbn [app].
        rewrite (Hlast [c] d eq_refl). reflexivity.
      - exact W. }
    rewrite W'. reflexivity.
Qed.

Lemma split_join (bs : list str) :
  forall prev : option char,
  bs <> [] ->
  Forall readable bs ->
  Re.split_from BULLET_SPLIT 0 prev (join [NL] bs) = bs.
Proof.
  induction bs as [|b bs IH]; intros prev Hne Hall; [congruence|].
  inversion Hall as [|? ? Hb Hbs]; subst.
  destruct bs as [|b2 r].
  - cbn [join]. rewrite <- (app_nil_r b) at 1.
    exact (split_readable prev [] Hb).
  - change (join [NL] (b :: b2 :: r)) with (b ++ NL :: join [NL] (b2 :: r)).
    rewrite (split_readable prev (b2 :: r) Hb).
    f_equal. apply IH; [discriminate | exact Hbs].
Qed.

Lemma rstrip_prefix (p : char -> bool) (s : str) :
  exists suf, s = rstrip p s ++ suf.
Proof.
  unfold rstrip.
  destruct (lstrip_suffix p (rev s)) as [pre Hpre].
  exists (rev pre).
  rewrite <- rev_app_distr, <- Hpre. now rewrite rev_involutive.
Qed.

Lemma rstrip_last (p : char -> bool) (s y : str) (c : char) :
  rstrip p s = y ++ [c] -> p c = false.
Proof.
  unfold rstrip. intros H.
  apply (f_equal (@rev char)) in H.
  rewrite rev_involutive, rev_app_distr in H. cbn [rev app] in H.
  apply (lstrip_head p (rev s)). now rewrite H.
Qed.

Lemma strip_by_last (p : char -> bool) (s y : str) (c : char) :
  strip_by p s = y ++ [c] -> p c = false.
Proof. apply rstrip_last. Qed.

Lemma strip_by_head (p : char -> bool) (s : str) (c : char) :
  hd_error (strip_by p s) = Some c -> p c = false.
Proof.
  unfold strip_by. intros H.
  destruct (rstrip_prefix p (lstrip p s)) as [suf Hs].
  apply (lstrip_head p s). rewrite Hs.
  destruct (rstrip p (lstrip p s)); [discriminate | exact H].
Qed.

Lemma lstrip_fix (p : char -> bool) (z : str) :
  (forall c, hd_error z = Some c -> p c = false) -> lstrip p z = z.
Proof.
  destruct z as [|c t]; [reflexivity|].
  intros H. cbn. now rewrite (H c eq_refl).
Qed.

Lemma strip_by_fix (p : char -> bool) (z : str) :
  (forall c, hd_error z = Some c -> p c = false) ->
  (forall y c, z = y ++ [c] -> p c = false) ->
  strip_by p z = z.
Proof.
  intros Hh Hl. unfold strip_by. rewrite (@lstrip_fix p z Hh).
  unfold rstrip. rewrite lstrip_fix; [apply rev_involutive|].
  intros c Hc.
  apply (Hl (rev (tl (rev z))) c).
  destruct (rev z) as [|d r] eqn:E; [discriminate|].
  cbn in Hc. injection Hc as ->.
  apply (f_equal (@rev char)) in E. rewrite rev_involutive in E.
  exact E.
Qed.

Lemma strip_by_idem (p : char -> bool) (s : str) :
  strip_by p (strip_by p s) = strip_by p s.
Proof.
  apply strip_by_fix.
  - apply strip_by_head.
  - intros y c H. eapply strip_by_last; eassumption.
Qed.

Lemma strip_by_calm (p : char -> bool) (s : str) :
  calm s = true -> calm (strip_by p s) = true.
Proof.
  intros H. unfold strip_by.
  destruct (lstrip_suffix p s) as [pre Hpre].
  rewrite Hpre in H. apply calm_suffix in H.
  destruct (rstrip_prefix p (lstrip p s)) as [suf Hs].
  rewrite Hs in H. exact (calm_prefix _ _ H).
Qed.

(** A trimmed fragment of the split is readable. *)
Lemma trimmed_fragment_readable (s f : str) :
  In f (Re.split BULLET_SPLIT s) -> readable (strip_chars BULLET_TRIM f).
Proof.
  intros Hin. split.
  - apply strip_by_calm. eapply split_calm; eassumption.
  - intros y c H. apply strip_by_last in H.
    destruct (char_eqb HYPHEN c) eqn:E; [|reflexivity].
    apply N.eqb_eq in E. subst c. discriminate H.
Qed.

(** ** De-duplication *)

Lemma str_eqb_eq (a b : str) : str_eqb a b = true <-> a = b.
Proof.
  revert b. induction a as [|x a IH]; intros [|y b]; cbn; try easy.
  rewrite andb_true_iff, IH. unfold char_eqb. rewrite N.eqb_eq.
  split; [intros [-> ->]; reflexivity | intros [= -> ->]; now split].
Qed.

Lemma existsb_str_eqb (x : str) (l : list str) :
  existsb (str_eqb x) l = true <-> In x l.
Proof.
  rewrite existsb_exists. split.
  - intros (y & Hin & He). apply str_eqb_eq in He. now subst.
  - intros Hin. exists x. split; [exact Hin | now apply str_eqb_eq].
Qed.

Lemma NoDup_rev_iff {A} (l : list A) : NoDup (rev l) <-> NoDup l.
Proof.
  split; intros H; [|now apply NoDup_rev].
  rewrite <- (rev_involutive l). now apply NoDup_rev.
Qed.

Section Dedupe.
Variable U : UnicodeData.

(** The loop keeps [seen] equal, as a set, to the lowered entries of
    [deduped], keeps those pairwise distinct, and only appends entries of
    its input. *)
Lemma dedupe_loop_invariant (l : list str) :
  forall seen deduped,
    (forall x, In x seen <-> In x (map (lower U) deduped)) ->
    NoDup (map (lower U) deduped) ->
    exists seen' extra,
      fold_left (dedupe_step U) l (seen, deduped) = (seen', deduped ++ extra)
      /\ (forall x, In x seen' <-> In x (map (lower U) (deduped ++ extra)))
      /\ NoDup (map (lower U) (deduped ++ extra))
      /\ incl extra l.
Proof.
  induction l as [|b l IH]; intros seen deduped Hs Hn.
  - exists seen, []. rewrite app_nil_r.
    split; [reflexivity|]. split; [exact Hs|]. split; [exact Hn|].
    intros x [].
  - cbn [fold_left]. unfold dedupe_step at 2.
    destruct (existsb (str_eqb (lower U b)) seen) eqn:E.
    + destruct (IH seen deduped Hs Hn) as (seen' & extra & Hf & Hs' & Hn' & Hi).
      exists seen', extra.
      split; [exact Hf|]. split; [exact Hs'|]. split; [exact Hn'|].
      now apply incl_tl.
    + assert (Hnot : ~ In (lower U b) (map (lower U) deduped)).
      { intros Hin. apply Hs in Hin. apply existsb_str_eqb in Hin. congruence. }
      destruct (IH (lower U b :: seen) (deduped ++ [b])) as
        (seen' & extra & Hf & Hs' & Hn' & Hi).
      * intros x. rewrite map_app, in_app_iff. cbn [In map].
        rewrite Hs. tauto.
      * rewrite map_app. cbn [map].
        apply NoDup_rev_iff. rewrite rev_app_distr. cbn [rev app].
        constructor; [now rewrite <- in_rev | now apply NoDup_rev_iff].
      * exists seen', (b :: extra).
        replace (deduped ++ b :: extra) with ((deduped ++ [b]) ++ extra)
          by (now rewrite <- app_assoc).
        split; [exact Hf|]. split; [exact Hs'|]. split; [exact Hn'|].
        intros x [<- | Hx]; [now left | right; now apply Hi].
Qed.

Lemma dedupe_spec (l : list str) :
  NoDup (map (lower U) (dedupe U l)) /\ incl (dedupe U l) l.
Proof.
  unfold dedupe.
  destruct (@dedupe_loop_invariant l [] []) as (seen' & extra & Hf & _ & Hn & Hi).
  - intros x. tauto.
  - constructor.
  - rewrite Hf. cbn [snd app] in *. split; assumption.
Qed.

(** On a list without case-insensitive duplicates the loop appends every
    entry. *)
Lemma dedupe_loop_distinct (l : list str) :
  forall seen deduped,
    (forall x, In x seen <-> In x (map (lower U) deduped)) ->
    NoDup (map (lower U) (deduped ++ l)) ->
    snd (fold_left (dedupe_step U) l (seen, deduped)) = deduped ++ l.
Proof.
  induction l as [|b l IH]; intros seen deduped Hs Hn.
  - cbn. now rewrite app_nil_r.
  - cbn [fold_left]. unfold dedupe_step at 2.
    assert (Hnot : ~ In (lower U b) (map (lower U) deduped)).
    { rewrite map_app in Hn. cbn [map] in Hn.
      apply NoDup_remove_2 in Hn. rewrite in_app_iff in Hn. tauto. }
    destruct (existsb (str_eqb (lower U b)) seen) eqn:E.
    + apply existsb_str_eqb in E. apply Hs in E. contradiction.
    + replace (deduped ++ b :: l) with ((deduped ++ [b]) ++ l) in *
        by (now rewrite <- app_assoc).
      apply IH; [|exact Hn].
      intros x. rewrite map_app, in_app_iff. cbn [In map].
      rewrite Hs. tauto.
Qed.

Lemma dedupe_distinct (l : list str) :
  NoDup (map (lower U) l) -> dedupe U l = l.
Proof.
  intros Hn. unfold dedupe.
  rewrite (@dedupe_loop_distinct l [] []); trivial.
  intros x. tauto.
Qed.

End Dedupe.

Lemma NoDup_firstn {A} (n : nat) (l : list A) : NoDup l -> NoDup (firstn n l).
Proof.
  intros H. rewrite <- (firstn_skipn n l) in H.
  exact (NoDup_app_remove_r _ _ H).
Qed.

Lemma In_firstn {A} (n : nat) (l : list A) (x : A) :
  In x (firstn n l) -> In x l.
Proof.
  intros H. rewrite <- (firstn_skipn n l). apply in_or_app. now left.
Qed.

(** ** Idempotence of the bullet extractor, up to blank bullets *)

Lemma filter_all {A} (f : A -> bool) (l : list A) :
  (forall x, In x l -> f x = true) -> filter f l = l.
Proof.
  induction l as [|a l IH]; intros H; [reflexivity|].
  cbn. rewrite (H a (or_introl eq_refl)). f_equal.
  apply IH. intros x Hx. apply H. now right.
Qed.

Lemma map_fix {A} (f : A -> A) (l : list A) :
  (forall x, In x l -> f x = x) -> map f l = l.
Proof.
  induction l as [|a l IH]; intros H; [reflexivity|].
  cbn. rewrite (H a (or_introl eq_refl)). f_equal.
  apply IH. intros x Hx. apply H. now right.
Qed.

Lemma strip_truthy (b : str) : truthy (strip b) = true -> truthy b = true.
Proof. destruct b; [discriminate | reflexivity]. Qed.

(** A list of readable, trimmed, non-blank bullets without case-insensitive
    duplicates, at most eight of them, is read back as it is. *)
Lemma to_bullets_read_back (U : UnicodeData) (bs : list str) :
  Forall readable bs ->
  (forall b, In b bs -> truthy (strip b) = true) ->
  (forall b, In b bs -> strip_chars BULLET_TRIM b = b) ->
  NoDup (map (lower U) bs) ->
  (List.length bs <= 8)%nat ->
  to_bullets U (join [NL] bs) = bs.
Proof.
  intros Hr Hb Ht Hn Hl.
  destruct bs as [|b0 bs0] eqn:E; [reflexivity|]. rewrite <- E in *.
  assert (Hne : bs <> []) by (rewrite E; discriminate).
  unfold to_bullets, Re.split.
  rewrite (split_join None Hne Hr).
  rewrite filter_all.
  - rewrite (map_fix _ _ Ht).
    rewrite (dedupe_distinct U bs Hn).
    apply firstn_all2. exact Hl.
  - intros x Hx. rewrite (Hb x Hx), (strip_truthy x (Hb x Hx)). reflexivity.
Qed.

Lemma to_bullets_origin (U : UnicodeData) (txt b : str) :
  In b (to_bullets U txt) ->
  exists f, In f (Re.split BULLET_SPLIT txt) /\ b = strip_chars BULLET_TRIM f.
Proof.
  unfold to_bullets, slice_to. intros H.
  apply In_firstn in H.
  apply (proj2 (dedupe_spec U _)) in H.
  apply in_map_iff in H. destruct H as (f & <- & Hf).
  apply filter_In in Hf. destruct Hf as [Hf _].
  exists f. split; [exact Hf | reflexivity].
Qed.

(** X1: The extractor is idempotent on its newline-joined output whenever that
    output has no blank bullet: the empty and white-space-only bullets that
    the filter lets through are the only obstacle. *)
Theorem to_bullets_idempotent_without_blank (U : UnicodeData) (txt : str) :
  (forall b, In b (to_bullets U txt) -> truthy (strip b) = true) ->
  to_bullets U (join [NL] (to_bullets U txt)) = to_bullets U txt.
Proof.
  intros Hb. apply to_bullets_read_back.
  - apply Forall_forall. intros b Hin.
    destruct (to_bullets_origin U txt b Hin) as (f & Hf & ->).
    eapply trimmed_fragment_readable; eassumption.
  - exact Hb.
  - intros b Hin.
    destruct (to_bullets_origin U txt b Hin) as (f & Hf & ->).
    apply strip_by_idem.
  - unfold to_bullets, slice_to. rewrite <- firstn_map.
    apply NoDup_firstn. apply dedupe_spec.
  - unfold to_bullets, slice_to. apply firstn_le_length.
Qed.

Lemma to_bullets_idempotent_without_blank_witness :
  (forall b,
      In b (to_bullets ascii_tables (u "a; b - c" ++ [NL] ++ u "A")) ->
      truthy (strip b) = true)
  /\ to_bullets ascii_tables
       (join [NL] (to_bullets ascii_tables (u "a; b - c" ++ [NL] ++ u "A")))
     = [u "a"; u "b"; u "c"].
Proof.
  assert (H : forall b,
             In b (to_bullets ascii_tables (u "a; b - c" ++ [NL] ++ u "A")) ->
             truthy (strip b) = true).
  { intros b Hin. vm_compute in Hin.
    destruct Hin as [<- | [<- | [<- | []]]]; reflexivity. }
  split; [exact H|].
  rewrite (@to_bullets_idempotent_without_blank ascii_tables _ H).
  vm_compute. reflexivity.
Defined.

(** * Further properties of the code *)

(** ** What a bullet looks like *)

Lemma calm_no_separator (b : str) :
  calm b = true -> ~ In NL b /\ ~ In SEMICOLON b.
Proof.
  induction b as [|c t IH]; intros H; [split; intros []|].
  pose proof (calm_tail _ _ H) as Ht. destruct (IH Ht) as [Hn Hs].
  cbn [calm] in H.
  apply andb_true_iff in H. destruct H as [H _].
  apply andb_true_iff in H. destruct H as [H _].
  apply andb_true_iff in H. destruct H as [H1 H2].
  apply negb_true_iff in H1, H2.
  split; intros [E | Hin]; try contradiction; subst c.
  - discriminate H1.
  - discriminate H2.
Qed.

Lemma mem_char_trim (c : char) :
  mem_char BULLET_TRIM c = false ->
  c <> SPACE /\ c <> HYPHEN /\ c <> STAR /\ c <> TAB.
Proof.
  intros H.
  repeat split; intros ->; discriminate H.
Qed.

(** X2: No bullet of [to_bullets] contains a newline or a semicolon, and none
    begins or ends with a space, a hyphen, an asterisk or a tab. *)
Theorem to_bullets_bullet_shape (U : UnicodeData) (txt b : str) :
  In b (to_bullets U txt) ->
  ~ In NL b
  /\ ~ In SEMICOLON b
  /\ (forall c, hd_error b = Some c ->
        c <> SPACE /\ c <> HYPHEN /\ c <> STAR /\ c <> TAB)
  /\ (forall y c, b = y ++ [c] ->
        c <> SPACE /\ c <> HYPHEN /\ c <> STAR /\ c <> TAB).
Proof.
  intros Hin.
  destruct (to_bullets_origin U txt b Hin) as (f & Hf & ->).
  destruct (trimmed_fragment_readable txt f Hf) as [Hc _].
  destruct (calm_no_separator _ Hc) as [Hn Hs].
  split; [exact Hn|]. split; [exact Hs|]. split.
  - intros c Hc'. apply mem_char_trim. eapply strip_by_head; eassumption.
  - intros y c Hy. apply mem_char_trim. eapply strip_by_last; eassumption.
Qed.

Lemma to_bullets_bullet_shape_witness :
  In (u "ship it") (to_bullets ascii_tables (u "- ship it ;* rest"))
  /\ ~ In NL (u "ship it")
  /\ ~ In SEMICOLON (u "ship it").
Proof.
  assert (H : In (u "ship it") (to_bullets ascii_tables (u "- ship it ;* rest")))
    by (vm_compute; left; reflexivity).
  split; [exact H|].
  destruct (@to_bullets_bullet_shape ascii_tables (u "- ship it ;* rest")
              (u "ship it") H) as (Hn & Hs & _).
  split; [exact Hn | exact Hs].
Defined.

(** X3: [to_bullets] returns at most eight bullets, and no two of them are
    equal when case is ignored. *)
Theorem to_bullets_distinct_and_capped (U : UnicodeData) (txt : str) :
  (List.length (to_bullets U txt) <= 8)%nat
  /\ NoDup (map (lower U) (to_bullets U txt)).
Proof.
  unfold to_bullets, slice_to. split.
  - apply firstn_le_length.
  - rewrite <- firstn_map. apply NoDup_firstn. apply dedupe_spec.
Qed.

Section DedupeComplete.
Variable U : UnicodeData.

Lemma dedupe_loop_complete (l : list str) :
  forall seen deduped,
    (forall x, In x seen <-> In x (map (lower U) deduped)) ->
    NoDup (map (lower U) deduped) ->
    forall x, In x l ->
      In (lower U x)
         (map (lower U) (snd (fold_left (dedupe_step U) l (seen, deduped)))).
Proof.
  induction l as [|b l IH]; intros seen deduped Hs Hn x Hx; [contradiction|].
  cbn [fold_left]. unfold dedupe_step at 2.
  destruct (existsb (str_eqb (lower U b)) seen) eqn:E.
  - destruct Hx as [<- | Hx]; [|now apply IH].
    destruct (dedupe_loop_invariant U l seen deduped Hs Hn)
      as (seen' & extra & Hf & _ & _ & _).
    rewrite Hf. cbn [snd]. rewrite map_app, in_app_iff. left.
    apply Hs. now apply existsb_str_eqb.
  - assert (Hnot : ~ In (lower U b) (map (lower U) deduped)).
    { intros Hin. apply Hs in Hin. apply existsb_str_eqb in Hin. congruence. }
    assert (Hs1 : forall y, In y (lower U b :: seen)
                            <-> In y (map (lower U) (deduped ++ [b]))).
    { intros y. rewrite map_app, in_app_iff. cbn [In map].
      rewrite Hs. tauto. }
    assert (Hn1 : NoDup (map (lower U) (deduped ++ [b]))).
    { rewrite map_app. cbn [map].
      apply NoDup_rev_iff. rewrite rev_app_distr. cbn [rev app].
      constructor; [now rewrite <- in_rev | now apply NoDup_rev_iff]. }
    destruct Hx as [<- | Hx]; [|now apply IH].
    destruct (dedupe_loop_invariant U l (lower U b :: seen) (deduped ++ [b])
                Hs1 Hn1) as (seen' & extra & Hf & _ & _ & _).
    rewrite Hf. cbn [snd]. rewrite !map_app, !in_app_iff.
    left. right. now left.
Qed.

Lemma dedupe_complete (l : list str) (x : str) :
  In x l -> In (lower U x) (map (lower U) (dedupe U l)).
Proof.
  unfold dedupe. apply dedupe_loop_complete.
  - intros y. tauto.
  - constructor.
Qed.

End DedupeComplete.

(** X4: Unless the cap of eight is reached, every non-blank fragment of the
    text is represented among the bullets: the only fragments dropped are
    case-insensitive duplicates of a bullet that is returned. *)
Theorem to_bullets_drops_only_duplicates (U : UnicodeData) (txt f : str) :
  (List.length (to_bullets U txt) < 8)%nat ->
  In f (Re.split BULLET_SPLIT txt) ->
  truthy (strip f) = true ->
  In (lower U (strip_chars BULLET_TRIM f)) (map (lower U) (to_bullets U txt)).
Proof.
  unfold to_bullets, slice_to. intros Hlen Hf Ht.
  set (bs := map (strip_chars BULLET_TRIM)
               (filter (fun x => truthy x && truthy (strip x))
                       (Re.split BULLET_SPLIT txt))) in *.
  rewrite firstn_all2.
  - apply dedupe_complete. apply in_map. apply filter_In.
    split; [exact Hf|]. now rewrite Ht, (strip_truthy f Ht).
  - destruct (Nat.le_gt_cases (List.length (dedupe U bs)) 8) as [H | H];
      [exact H|].
    rewrite length_firstn in Hlen. lia.
Qed.

Lemma to_bullets_drops_only_duplicates_witness :
  (List.length (to_bullets ascii_tables (u "Plan; plan ;PLAN - ship")) < 8)%nat
  /\ In (u " plan ") (Re.split BULLET_SPLIT (u "Plan; plan ;PLAN - ship"))
  /\ truthy (strip (u " plan ")) = true
  /\ In (lower ascii_tables (strip_chars BULLET_TRIM (u " plan ")))
        (map (lower ascii_tables)
             (to_bullets ascii_tables (u "Plan; plan ;PLAN - ship"))).
Proof.
  assert (H1 : (List.length
                  (to_bullets ascii_tables (u "Plan; plan ;PLAN - ship")) < 8)%nat)
    by (vm_compute; lia).
  assert (H2 : In (u " plan ")
                  (Re.split BULLET_SPLIT (u "Plan; plan ;PLAN - ship")))
    by (vm_compute; right; left; reflexivity).
  assert (H3 : truthy (strip (u " plan ")) = true) by reflexivity.
  split; [exact H1|]. split; [exact H2|]. split; [exact H3|].
  exact (@to_bullets_drops_only_duplicates ascii_tables _ _ H1 H2 H3).
Defined.

Lemma split_from_chars (r : Re.regex) (s : str) :
  forall (k : nat) (prev : option char) (f : str) (c : char),
    In f (Re.split_from r k prev s) -> In c f -> In c s.
Proof.
  induction s as [|a t IH]; intros k prev f c Hf Hc.
  - cbn in Hf. destruct k; destruct Hf as [<- | []]; contradiction.
  - destruct k as [|k].
    + rewrite split_from_unfold in Hf.
      destruct (Re.match_re r prev (a :: t)) as [[|n]|].
      * destruct (Re.split_from r 0 (Some a) t) as [|f0 fs] eqn:E.
        -- destruct Hf as [<- | []]. destruct Hc as [<- | []]. now left.
        -- destruct Hf as [<- | Hf].
           ++ destruct Hc as [<- | Hc]; [now left | right].
              apply (IH 0%nat (Some a) f0 c); [rewrite E; now left | exact Hc].
           ++ right. apply (IH 0%nat (Some a) f c); [rewrite E; now right | exact Hc].
      * destruct Hf as [<- | Hf]; [contradiction|].
        right. exact (IH n (Some a) f c Hf Hc).
      * destruct (Re.split_from r 0 (Some a) t) as [|f0 fs] eqn:E.
        -- destruct Hf as [<- | []]. destruct Hc as [<- | []]. now left.
        -- destruct Hf as [<- | Hf].
           ++ destruct Hc as [<- | Hc]; [now left | right].
              apply (IH 0%nat (Some a) f0 c); [rewrite E; now left | exact Hc].
           ++ right. apply (IH 0%nat (Some a) f c); [rewrite E; now right | exact Hc].
    + right. exact (IH k (Some a) f c Hf Hc).
Qed.

Lemma lstrip_all (p : char -> bool) (s : str) :
  forallb p s = true -> lstrip p s = [].
Proof.
  induction s as [|c t IH]; [reflexivity|].
  cbn. intros H. apply andb_true_iff in H. destruct H as [Hc Ht].
  rewrite Hc. exact (IH Ht).
Qed.

(** X5: A text made of white space only, the empty text included, yields no
    bullet. *)
Theorem to_bullets_blank_text (U : UnicodeData) (txt : str) :
  forallb isspace txt = true -> to_bullets U txt = [].
Proof.
  intros Hb. unfold to_bullets.
  assert (Hnone : forall l,
             (forall f, In f l -> forallb isspace f = true) ->
             filter (fun x => truthy x && truthy (strip x)) l = []).
  { induction l as [|f fs IH]; intros H; [reflexivity|].
    cbn [filter].
    assert (Hf : strip f = []).
    { unfold strip, strip_by. rewrite lstrip_all by (apply H; now left).
      reflexivity. }
    rewrite Hf. cbn [truthy]. rewrite andb_false_r.
    apply IH. intros g Hg. apply H. now right. }
  rewrite Hnone; [reflexivity|].
  intros f Hf. apply forallb_forall. intros c Hc.
  rewrite forallb_forall in Hb. apply Hb.
  exact (split_from_chars _ _ _ _ _ _ Hf Hc).
Qed.

Lemma to_bullets_blank_text_witness :
  forallb isspace (u "  " ++ [NL; TAB]) = true
  /\ to_bullets ascii_tables (u "  " ++ [NL; TAB]) = [].
Proof.
  assert (H : forallb isspace (u "  " ++ [NL; TAB]) = true) by reflexivity.
  split; [exact H|].
  exact (@to_bullets_blank_text ascii_tables _ H).
Defined.

(** ** Bounds and fixed points of the substitution engine *)

Section Levels.
Variable U : UnicodeData.

Lemma apply_buzzwords_fold (s : str) (i : Z) :
  apply_buzzwords U s i
  = if (i <=? 0)%Z then Some s
    else fold_left (level_step U) (range 1 (i + 1)) (Some s).
Proof. reflexivity. Qed.




Lemma apply_buzzwords_within (s : str) (i : Z) :
  (i <= 3)%Z -> exists out, apply_buzzwords U s i = Some out.
Proof.
  intros Hi. rewrite apply_buzzwords_fold.
  destruct (Z.leb_spec i 0); [eexists; reflexivity|].
  assert (Hc : i = 1%Z \/ i = 2%Z \/ i = 3%Z) by lia.
  destruct Hc as [-> | [-> | ->]]; eexists; reflexivity.
Qed.

End Levels.



Lemma ci_plain (U : UnicodeData) (c x : char) :
  ascii_alpha c = true -> plain_char x = true -> ci U c x = false.
Proof.
  unfold ci, plain_char, ascii_alpha, ascii_lower, ascii_upper, is_ascii,
    between, char_eqb.
  intros Hc Hx.
  apply andb_true_iff in Hx. destruct Hx as [Hx1 Hx2].
  apply negb_true_iff in Hx2.
  apply N.ltb_lt in Hx1.
  assert (Hca : (c <? 128)%N = true).
  { apply N.ltb_lt.
    apply orb_true_iff in Hc.
    destruct Hc as [H | H]; apply andb_true_iff in H; destruct H as [_ H];
      apply N.leb_le in H; lia. }
  rewrite Hca. replace (x <? 128)%N with true by (symmetry; now apply N.ltb_lt).
  cbn [andb].
  apply N.eqb_neq.
  apply orb_false_iff in Hx2. destruct Hx2 as [Hu Hl].
  rewrite Hu.
  apply orb_true_iff in Hc.
  apply andb_false_iff in Hu, Hl.
  destruct Hc as [H | H]; [rewrite H | ];
    apply andb_true_iff in H; destruct H as [H1 H2];
    apply N.leb_le in H1, H2.
  - destruct Hu as [Hu | Hu], Hl as [Hl | Hl];
      apply N.leb_gt in Hu, Hl; lia.
  - replace ((65 <=? c)%N && (c <=? 90)%N) with false.
    + destruct Hu as [Hu | Hu], Hl as [Hl | Hl];
        apply N.leb_gt in Hu, Hl; lia.
    + symmetry. apply andb_false_iff. right. apply N.leb_gt. lia.
Qed.

Lemma buzzword_patterns_open_with_letter (U : UnicodeData) :
  Forall (Forall (fun pr => opens_with_letter U (fst pr)))
         (BUZZWORD_MAP_LEVELS U).
Proof.
  unfold BUZZWORD_MAP_LEVELS.
  repeat (apply Forall_cons;
          [ repeat (apply Forall_cons;
                    [ eexists; eexists; split; reflexivity | ]);
            apply Forall_nil
          | ]).
  apply Forall_nil.
Qed.

Lemma whole_word_plain (U : UnicodeData) (pat : list Re.atom)
    (prev : option char) (x : char) (t : str) :
  opens_with_letter U pat -> plain_char x = true ->
  Re.match_re (whole_word U pat) prev (x :: t) = None.
Proof.
  intros (c & rest & -> & Hc) Hx.
  unfold whole_word. cbn [app Re.match_re Re.match_atoms].
  rewrite (@ci_plain U c x Hc Hx).
  now destruct (xorb _ _).
Qed.

Lemma sub_plain (U : UnicodeData) (pat : list Re.atom) (repl s : str) :
  opens_with_letter U pat -> forallb plain_char s = true ->
  forall prev, Re.sub_from (whole_word U pat) repl 0 prev s = s.
Proof.
  intros Hp. induction s as [|x t IH]; intros Hs prev; [reflexivity|].
  cbn [forallb] in Hs. apply andb_true_iff in Hs. destruct Hs as [Hx Ht].
  rewrite sub_from_unfold, (@whole_word_plain U pat prev x t Hp Hx).
  now rewrite IH.
Qed.

Lemma apply_level_plain (U : UnicodeData) (lvl : list (list Re.atom * str))
    (s : str) :
  Forall (fun pr => opens_with_letter U (fst pr)) lvl ->
  forallb plain_char s = true ->
  apply_level U lvl s = s.
Proof.
  intros Hl Hs. unfold apply_level.
  induction Hl as [|pr lvl Hp _ IH]; [reflexivity|].
  cbn [fold_left]. unfold Re.sub.
  rewrite (@sub_plain U (fst pr) (snd pr) s Hp Hs). exact IH.
Qed.

Lemma level_step_plain (U : UnicodeData) (s : str) (l : list Z) :
  forallb plain_char s = true ->
  fold_left (level_step U) l (Some s) = Some s
  \/ fold_left (level_step U) l (Some s) = None.
Proof.
  intros Hs. induction l as [|i l IH]; [now left|].
  cbn [fold_left]. unfold level_step at 2 4.
  destruct (nth_error (BUZZWORD_MAP_LEVELS U) (Z.to_nat i)) as [m|] eqn:E.
  - rewrite apply_level_plain; [exact IH | | exact Hs].
    pose proof (buzzword_patterns_open_with_letter U) as H.
    rewrite Forall_forall in H. apply H.
    eapply nth_error_In; eassumption.
  - right. clear. induction l as [|a l IH]; [reflexivity | exact IH].
Qed.

(** X7: A text without letters, made of ASCII digits, punctuation and white
    space, is returned unchanged at every intensity the map covers: each
    pattern opens with a letter. *)
Theorem apply_buzzwords_plain_text (U : UnicodeData) (s : str) (i : Z) :
  forallb plain_char s = true ->
  (i <= 3)%Z ->
  apply_buzzwords U s i = Some s.
Proof.
  intros Hs Hi.
  destruct (@apply_buzzwords_within U s i Hi) as [out Ho].
  rewrite Ho. rewrite apply_buzzwords_fold in Ho.
  destruct (Z.leb_spec i 0); [now rewrite Ho|].
  destruct (@level_step_plain U s (range 1 (i + 1)) Hs) as [Hf | Hf];
    rewrite Hf in Ho; [now rewrite <- Ho | discriminate Ho].
Qed.

Lemma apply_buzzwords_plain_text_witness :
  forallb plain_char (u "2024-05-01: 3 + 4 = 7 (100%)") = true
  /\ (3 <= 3)%Z
  /\ apply_buzzwords ascii_tables (u "2024-05-01: 3 + 4 = 7 (100%)") 3
     = Some (u "2024-05-01: 3 + 4 = 7 (100%)").
Proof.
  assert (H1 : forallb plain_char (u "2024-05-01: 3 + 4 = 7 (100%)") = true)
    by reflexivity.
  assert (H2 : (3 <= 3)%Z) by lia.
  split; [exact H1|]. split; [exact H2|].
  exact (@apply_buzzwords_plain_text ascii_tables _ 3%Z H1 H2).
Defined.

(** ** More on the subject line *)

Lemma lstrip_app (p : char -> bool) (x y : str) :
  lstrip p (x ++ y)
  = match lstrip p x with
    | [] => lstrip p y
    | z => z ++ y
    end.
Proof.
  induction x as [|c x IH]; [reflexivity|].
  cbn [app lstrip]. destruct (p c); [exact IH | reflexivity].
Qed.

Lemma rstrip_app_keep (p : char -> bool) (a b : str) (c : char) :
  p c = false -> rstrip p ((a ++ [c]) ++ b) = (a ++ [c]) ++ rstrip p b.
Proof.
  intros Hc. unfold rstrip.
  rewrite rev_app_distr, lstrip_app.
  destruct (lstrip p (rev b)) as [|z zs] eqn:E.
  - rewrite rev_app_distr. cbn [rev app lstrip]. rewrite Hc.
    cbn [rev]. rewrite rev_involutive. now rewrite app_nil_r.
  - rewrite rev_app_distr, rev_involutive. reflexivity.
Qed.

Lemma rstrip_length (p : char -> bool) (s : str) :
  (List.length (rstrip p s) <= List.length s)%nat.
Proof.
  destruct (rstrip_prefix p s) as [suf H].
  rewrite H at 2. rewrite length_app. lia.
Qed.

(** A string that begins and ends with a character that is no white space
    keeps its place at the front when what follows it is stripped. *)
Lemma strip_keeps_front (h l : char) (m b : str) :
  isspace h = false -> isspace l = false ->
  strip ((h :: m ++ [l]) ++ b) = (h :: m ++ [l]) ++ rstrip isspace b.
Proof.
  intros Hh Hl. unfold strip, strip_by.
  cbn [app lstrip]. rewrite Hh.
  change (h :: (m ++ [l]) ++ b) with (((h :: m) ++ [l]) ++ b).
  now rewrite rstrip_app_keep.
Qed.

Lemma subject_prefixes_well_formed (tone : Tone) :
  forallb well_formed_prefix (subject_prefixes tone) = true.
Proof. destruct tone; vm_compute; reflexivity. Qed.

Lemma well_formed_prefix_split (p : str) :
  well_formed_prefix p = true ->
  exists h m l,
    p = h :: m ++ [l] /\ isspace h = false /\ isspace l = false
    /\ (List.length p <= 23)%nat.
Proof.
  unfold well_formed_prefix.
  destruct p as [|h [|x t]]; try discriminate.
  destruct (rev (h :: x :: t)) as [|l r] eqn:E; [discriminate|].
  intros H.
  apply andb_true_iff in H. destruct H as [H H3].
  apply andb_true_iff in H. destruct H as [H1 H2].
  apply negb_true_iff in H1, H2. apply Nat.leb_le in H3.
  apply (f_equal (@rev char)) in E. rewrite rev_involutive in E.
  cbn [rev] in E.
  destruct (rev r) as [|h' m] eqn:Er.
  - cbn in E. discriminate E.
  - cbn [app] in E. injection E as <- E.
    exists h, m, l. rewrite E. repeat split; trivial.
    now rewrite <- E.
Qed.

Lemma make_subject_front (tone : Tone) (bullets : list str) (g : Rng) :
  exists prefix,
    In prefix (subject_prefixes tone)
    /\ (List.length prefix <= 23)%nat
    /\ make_subject tone bullets g
       = Some (prefix
               ++ rstrip isspace (u " " ++ firstn 72 (subject_core_cleaned bullets)),
               fun i => g (S i)).
Proof.
  destruct (make_subject_eq tone bullets g) as (prefix & Hin & Heq).
  pose proof (subject_prefixes_well_formed tone) as Hw.
  rewrite forallb_forall in Hw. specialize (Hw prefix Hin).
  destruct (well_formed_prefix_split prefix Hw) as (h & m & l & Hp & Hh & Hl & Hlen).
  exists prefix. split; [exact Hin|]. split; [exact Hlen|].
  rewrite Heq. f_equal. f_equal.
  rewrite Hp. apply strip_keeps_front; assumption.
Qed.

Lemma rstrip_cons (p : char -> bool) (a : char) (s : str) :
  rstrip p (a :: s)
  = match rstrip p s with
    | [] => if p a then [] else [a]
    | z => a :: z
    end.
Proof.
  unfold rstrip. cbn [rev]. rewrite lstrip_app.
  destruct (lstrip p (rev s)) as [|c l] eqn:E.
  - cbn [rev lstrip]. now destruct (p a).
  - rewrite rev_app_distr. cbn [rev app].
    destruct (rev l ++ [c]) eqn:E2; [|reflexivity].
    apply app_eq_nil in E2. destruct E2 as [_ E2]. discriminate E2.
Qed.

Lemma rstrip_fix (p : char -> bool) (s : str) :
  (forall y c, s = y ++ [c] -> p c = false) -> rstrip p s = s.
Proof.
  intros Hl. unfold rstrip. rewrite lstrip_fix; [apply rev_involutive|].
  intros c Hc. apply (Hl (rev (tl (rev s))) c).
  destruct (rev s) as [|d r] eqn:E; [discriminate|].
  cbn in Hc. injection Hc as ->.
  apply (f_equal (@rev char)) in E. rewrite rev_involutive in E.
  exact E.
Qed.

Lemma rstrip_head (p : char -> bool) (s : str) (c : char) :
  hd_error (rstrip p s) = Some c -> hd_error s = Some c.
Proof.
  destruct (rstrip_prefix p s) as [suf H]. intros Hc.
  rewrite H. destruct (rstrip p s); [discriminate | exact Hc].
Qed.

Lemma subject_prefixes_no_final_period (tone : Tone) (prefix : str) :
  In prefix (subject_prefixes tone) -> ~ ends_with prefix (u ".").
Proof.
  assert (H : forallb (fun p => match rev p with
                                | l :: _ => negb (char_eqb l PERIOD)
                                | [] => false
                                end)
                      (subject_prefixes tone) = true)
    by (destruct tone; vm_compute; reflexivity).
  rewrite forallb_forall in H.
  intros Hin [x Hx]. specialize (H prefix Hin).
  rewrite Hx, rev_app_distr in H. discriminate H.
Qed.

Lemma subject_keeps_no_final_period (prefix core : str) :
  ~ ends_with prefix (u ".") ->
  ~ ends_with core (u ".") ->
  ~ ends_with (prefix ++ match core with
                         | [] => []
                         | _ :: _ => u " " ++ core
                         end) (u ".").
Proof.
  intros Hp Hc. destruct core as [|c0 t].
  - now rewrite app_nil_r.
  - intros Hs. apply Hc.
    destruct (@exists_last _ (c0 :: t)) as (t' & l & Hl); [discriminate|].
    rewrite Hl in Hs |- *. rewrite !app_assoc in Hs.
    apply ends_with_last in Hs. subst l. now exists t'.
Qed.

(** C4, as the code has it: the subject returned by [make_subject] is a
    prefix drawn from the tone's bank followed, when the core is not empty,
    by a space and a core taken from the first bullet (or from "Update"
    without bullets).  The core has at most 72 characters and does not
    begin with a dash or a bullet marker.  Neither the core nor the subject
    ends with a period when the bullet does not end with two periods and
    its cleaned text (the leading run of dashes, bullet markers and white
    space removed, then one final period removed) has at most 72 characters
    and does not end with white space; the core is then the whole cleaned
    text. *)
Theorem make_subject_shape (tone : Tone) (bullets : list str) (g : Rng) :
  exists prefix core subj g',
    make_subject tone bullets g = Some (subj, g')
    /\ In prefix (subject_prefixes tone)
    /\ subj = prefix ++ match core with
                        | [] => []
                        | _ :: _ => u " " ++ core
                        end
    /\ prefix_of core (subject_core_cleaned bullets)
    /\ subject_core_cleaned bullets
       = drop_final_period (lstrip leading_mark (subject_core_source bullets))
    /\ (List.length core <= 72)%nat
    /\ hd_error core <> Some HYPHEN
    /\ hd_error core <> Some BULLET
    /\ (~ ends_with (subject_core_source bullets) (u "..") ->
        (List.length (subject_core_cleaned bullets) <= 72)%nat ->
        (forall y c, subject_core_cleaned bullets = y ++ [c] ->
                     isspace c = false) ->
        core = subject_core_cleaned bullets
        /\ ~ ends_with core (u ".")
        /\ ~ ends_with subj (u ".")).
Proof.
  destruct (make_subject_front tone bullets g) as (prefix & Hin & _ & Heq).
  set (cleaned := subject_core_cleaned bullets) in *.
  set (core := rstrip isspace (firstn 72 cleaned)).
  assert (Hsubj : prefix ++ rstrip isspace (u " " ++ firstn 72 cleaned)
                  = prefix ++ match core with
                              | [] => []
                              | _ :: _ => u " " ++ core
                              end).
  { f_equal. change (u " " ++ firstn 72 cleaned) with (SPACE :: firstn 72 cleaned).
    rewrite rstrip_cons. fold core. now destruct core. }
  rewrite Hsubj in Heq.
  exists prefix, core. eexists. eexists.
  split; [exact Heq|]. split; [exact Hin|]. split; [reflexivity|].
  split.
  { destruct (rstrip_prefix isspace (firstn 72 cleaned)) as [suf Hsuf].
    exists (suf ++ skipn 72 cleaned).
    rewrite <- (firstn_skipn 72 cleaned) at 1.
    rewrite Hsuf at 1. fold core. now rewrite <- app_assoc. }
  split; [apply subject_core_cleaned_eq|].
  split.
  { pose proof (rstrip_length isspace (firstn 72 cleaned)) as H1.
    pose proof (firstn_le_length 72 cleaned) as H2. fold core in H1. lia. }
  assert (Hhead : forall c, hd_error core = Some c ->
                            leading_mark c = false \/ c = NL).
  { intros c Hc. apply rstrip_head in Hc.
    assert (Hc' : hd_error cleaned = Some c).
    { destruct cleaned; [discriminate | exact Hc]. }
    unfold cleaned in Hc'. rewrite subject_core_cleaned_eq in Hc'.
    apply drop_final_period_head in Hc'. destruct Hc' as [Hc' | ->].
    - left. eapply lstrip_head; eassumption.
    - now right. }
  split; [|split].
  - intros Hc. destruct (Hhead _ Hc) as [H | H]; discriminate H.
  - intros Hc. destruct (Hhead _ Hc) as [H | H]; discriminate H.
  - intros Hno Hlen Hws.
    assert (Hcore : core = cleaned).
    { unfold core. rewrite firstn_all2 by exact Hlen.
      apply rstrip_fix. exact Hws. }
    assert (Hend : ~ ends_with core (u ".")).
    { rewrite Hcore. intros [y Hy].
      unfold cleaned in Hy. rewrite subject_core_cleaned_eq in Hy.
      apply drop_final_period_ends in Hy.
      destruct (lstrip_suffix leading_mark (subject_core_source bullets))
        as [pre Hpre].
      apply Hno. exists (pre ++ y).
      rewrite Hpre at 1. rewrite Hy. now rewrite app_assoc. }
    split; [exact Hcore|]. split; [exact Hend|].
    apply subject_keeps_no_final_period; [|exact Hend].
    exact (@subject_prefixes_no_final_period tone prefix Hin).
Qed.

Lemma make_subject_shape_witness :
  ~ ends_with (subject_core_source [u "- Ship the report."]) (u "..")
  /\ (List.length (subject_core_cleaned [u "- Ship the report."]) <= 72)%nat
  /\ (forall y c, subject_core_cleaned [u "- Ship the report."] = y ++ [c] ->
                  isspace c = false)
  /\ make_subject executive [u "- Ship the report."] zero_draws
     = Some (u "Summary: Ship the report", fun i => zero_draws (S i))
  /\ ~ ends_with (u "Summary: Ship the report") (u ".").
Proof.
  assert (Hno : ~ ends_with (subject_core_source [u "- Ship the report."]) (u "..")).
  { intros [x Hx]. apply (f_equal (@rev char)) in Hx.
    rewrite rev_app_distr in Hx. vm_compute in Hx. discriminate Hx. }
  assert (Hlen : (List.length (subject_core_cleaned [u "- Ship the report."]) <= 72)%nat)
    by (vm_compute; lia).
  assert (Hws : forall y c,
             subject_core_cleaned [u "- Ship the report."] = y ++ [c] ->
             isspace c = false).
  { intros y c Hy. apply (f_equal (@rev char)) in Hy.
    rewrite rev_app_distr in Hy. vm_compute in Hy.
    injection Hy as <- _. reflexivity. }
  assert (Hm : make_subject executive [u "- Ship the report."] zero_draws
               = Some (u "Summary: Ship the report", fun i => zero_draws (S i)))
    by reflexivity.
  split; [exact Hno|]. split; [exact Hlen|]. split; [exact Hws|].
  split; [exact Hm|].
  destruct (make_subject_shape executive [u "- Ship the report."] zero_draws)
    as (prefix & core & subj & g' & Heq & _ & _ & _ & _ & _ & _ & _ & H).
  rewrite Hm in Heq. injection Heq as <- _.
  exact (proj2 (proj2 (H Hno Hlen Hws))).
Defined.

(** A period in front of trailing white space survives as well: the
    pattern [\.$] does not reach it, and the final [strip()] then uncovers
    it.  The bullet ["Ship it.\r"], which a text with CRLF line ends gives,
    yields the subject ["Update: Ship it."]. *)
Example make_subject_period_before_white_space (U : UnicodeData) :
  to_bullets U (u "Ship it." ++ [13%N; NL] ++ u "Next")
  = [u "Ship it." ++ [13%N]; u "Next"]
  /\ make_subject formal [u "Ship it." ++ [13%N]] zero_draws
     = Some (u "Update: Ship it.", fun i => zero_draws (S i)).
Proof. split; vm_compute; reflexivity. Qed.

(** X8: The subject always begins with the prefix drawn from the tone's bank,
    and it has at most 96 characters: 23 for the longest prefix, one space
    and 72 of the bullet. *)
Theorem make_subject_prefix_and_length (tone : Tone) (bullets : list str)
    (g : Rng) :
  exists prefix rest g',
    make_subject tone bullets g = Some (prefix ++ rest, g')
    /\ In prefix (subject_prefixes tone)
    /\ (List.length (prefix ++ rest) <= 96)%nat.
Proof.
  destruct (make_subject_front tone bullets g) as (prefix & Hin & Hlen & Heq).
  exists prefix. eexists. eexists.
  split; [exact Heq|]. split; [exact Hin|].
  rewrite length_app.
  pose proof (rstrip_length isspace
                (u " " ++ firstn 72 (subject_core_cleaned bullets))) as Hr.
  rewrite length_app in Hr.
  pose proof (firstn_le_length 72 (subject_core_cleaned bullets)) as Hf.
  change (List.length (u " ")) with 1%nat in Hr. lia.
Qed.

(** X9: Without bullets the subject is the drawn prefix followed by the word
    "Update". *)
Theorem make_subject_without_bullets (tone : Tone) (g : Rng) :
  exists prefix,
    In prefix (subject_prefixes tone)
    /\ make_subject tone [] g = Some (prefix ++ u " Update", fun i => g (S i)).
Proof.
  destruct (make_subject_front tone [] g) as (prefix & Hin & _ & Heq).
  exists prefix. split; [exact Hin|]. exact Heq.
Qed.

(** X10: When the first bullet holds nothing but dashes, bullet markers and
    white space, as the empty bullet does, the subject is the bare prefix. *)
Theorem make_subject_blank_bullet (tone : Tone) (b : str) (others : list str)
    (g : Rng) :
  forallb leading_mark b = true ->
  exists prefix,
    In prefix (subject_prefixes tone)
    /\ make_subject tone (b :: others) g = Some (prefix, fun i => g (S i)).
Proof.
  intros Hb.
  destruct (make_subject_front tone (b :: others) g) as (prefix & Hin & _ & Heq).
  exists prefix. split; [exact Hin|].
  rewrite Heq. rewrite subject_core_cleaned_eq.
  cbn [subject_core_source]. rewrite (lstrip_all _ _ Hb).
  cbn. now rewrite app_nil_r.
Qed.

Lemma make_subject_blank_bullet_witness :
  forallb leading_mark (u "- • ") = true
  /\ exists prefix,
       In prefix (subject_prefixes casual)
       /\ make_subject casual [u "- • "; u "next"] zero_draws
          = Some (prefix, fun i => zero_draws (S i)).
Proof.
  assert (H : forallb leading_mark (u "- • ") = true) by reflexivity.
  split; [exact H|].
  exact (@make_subject_blank_bullet casual (u "- • ") [u "next"] zero_draws H).
Defined.

(** ** The shape of the composed message *)

(** The body is the greeting, the opener, the bullet block, the core
    sentence and the politeness phrase, in this order, each optional part
    present or absent as a whole. *)
Lemma body_assembly_parts (txt : str) (bullets : list str) (tone : Tone)
    (med : Medium) (len : Length) (include_bullets : bool)
    (greeting opener politeness : str) :
  body_assembly txt bullets tone med len include_bullets greeting opener
    politeness
  = greeting_part med greeting ++ optional_part opener
    ++ bullet_part tone med include_bullets bullets
    ++ [core_sentence len (summary_of txt bullets) bullets]
    ++ optional_part politeness.
Proof.
  unfold body_assembly, greeting_part, optional_part, bullet_part, summary_of,
    bullet_block, slice_to.
  cbv zeta.
  destruct (in_email_doc med && truthy greeting);
    destruct (truthy opener);
    destruct (include_bullets || Tone_beq tone executive && in_email_doc med);
    destruct (truthy_list bullets);
    destruct (truthy politeness);
    cbn [app]; rewrite <- ?app_assoc; reflexivity.
Qed.

Lemma core_sentence_truthy (len : Length) (summary : str) (bullets : list str) :
  truthy (core_sentence len summary bullets) = true.
Proof. destruct len, summary; reflexivity. Qed.

Lemma OPENERS_bank (tone : Tone) :
  exists bank,
    subscript Tone_beq OPENERS tone = Some bank
    /\ bank <> [] /\ forallb truthy bank = true.
Proof.
  destruct tone;
    (eexists; split; [reflexivity | split; [discriminate | reflexivity]]).
Qed.

Lemma pick_nonempty (items : list str) (g : Rng) :
  items <> [] ->
  exists x, pick items g = Some (x, fun i => g (S i)) /\ In x items.
Proof.
  intros Hne. destruct (choice_ok g Hne) as (x & Hx & Hin).
  exists x. split; [|exact Hin].
  unfold pick. destruct items; [congruence | exact Hx].
Qed.

(** What [compose_message] draws and returns: the opener is an entry of the
    tone's bank, the greeting and the politeness phrase are entries of the
    locale's banks or empty when the bank is empty, the sign-off is an
    entry of the medium's bank. *)
Lemma compose_message_picks (U : UnicodeData) (txt : str) (tone : Tone)
    (med : Medium) (len : Length) (loc : Locale)
    (include_bullets add_subject : bool) (g : Rng) :
  exists bank greeting opener politeness s_off subj g',
    subscript Tone_beq OPENERS tone = Some bank
    /\ In opener bank /\ truthy opener = true
    /\ (In greeting (locale_greetings loc)
        \/ (locale_greetings loc = [] /\ greeting = EMPTY))
    /\ (In politeness (locale_politeness loc)
        \/ (locale_politeness loc = [] /\ politeness = EMPTY))
    /\ In s_off (allowed_sign_offs med)
    /\ compose_message U txt tone med len loc include_bullets add_subject g
       = Some ({| subject := subj;
                  message :=
                    join [NL; NL]
                      (filter truthy
                         (greeting_part med greeting ++ optional_part opener
                          ++ bullet_part tone med include_bullets
                               (to_bullets U txt)
                          ++ [core_sentence len
                                (summary_of txt (to_bullets U txt))
                                (to_bullets U txt)]
                          ++ optional_part politeness
                          ++ optional_part s_off)) |},
               g').
Proof.
  destruct (OPENERS_bank tone) as (bank & Hbank & Hne & Hall).
  destruct (pick_nonempty g Hne) as (opener & Ho & Hino).
  destruct (pick_ok (locale_greetings loc) (fun i => g (S i)))
    as (greeting & g2 & Hg & Hing).
  destruct (pick_ok (locale_politeness loc) g2) as (politeness & g3 & Hp & Hinp).
  destruct (sign_off_ok med g3) as (s_off & Hs & Hins).
  exists bank, greeting, opener, politeness, s_off.
  assert (Hbody :
            body_before_sign_off U txt tone med len loc include_bullets g
            = Some ((to_bullets U txt,
                     body_assembly txt (to_bullets U txt) tone med len
                       include_bullets greeting opener politeness), g3)).
  { unfold body_before_sign_off, bind. rewrite Hbank. cbn [lift ret].
    rewrite Ho. rewrite LOCALE_FLAVOR_generic. cbn [lift ret].
    fold (locale_greetings loc). rewrite Hg.
    fold (locale_politeness loc). rewrite Hp. reflexivity. }
  assert (Hmsg : forall parts,
             (if truthy s_off then parts ++ [s_off] else parts)
             = parts ++ optional_part s_off).
  { intros parts. unfold optional_part.
    destruct (truthy s_off); [reflexivity | now rewrite app_nil_r]. }
  assert (Htruthy : truthy opener = true).
  { rewrite forallb_forall in Hall. now apply Hall. }
  unfold compose_message, bind. rewrite Hbody. cbn [fst snd]. rewrite Hs.
  rewrite Hmsg, body_assembly_parts, <- !app_assoc.
  destruct (Medium_beq med email && add_subject).
  - destruct (make_subject_nonempty tone (to_bullets U txt) (fun i => g3 (S i)))
      as (sj & g4 & Hm & _).
    rewrite Hm. cbn [ret].
    exists (Some sj), g4. repeat (split; [assumption|]). reflexivity.
  - cbn [ret]. exists None. eexists.
    repeat (split; [assumption|]). reflexivity.
Qed.

Lemma join_cons (sep x : str) (l : list str) :
  l <> [] -> join sep (x :: l) = x ++ sep ++ join sep l.
Proof. destruct l; [congruence | reflexivity]. Qed.

Lemma join_snoc (sep x : str) (l : list str) :
  l <> [] -> join sep (l ++ [x]) = join sep l ++ sep ++ x.
Proof.
  induction l as [|a l IH]; [congruence|]. intros _.
  destruct l as [|b l].
  - reflexivity.
  - change ((a :: b :: l) ++ [x]) with (a :: (b :: l) ++ [x]).
    rewrite (@join_cons sep a ((b :: l) ++ [x])) by discriminate.
    rewrite IH by discriminate.
    rewrite (@join_cons sep a (b :: l)) by discriminate.
    now rewrite <- !app_assoc.
Qed.

Lemma filter_truthy_optional (p : str) :
  filter truthy (optional_part p) = optional_part p.
Proof.
  unfold optional_part. destruct (truthy p) eqn:E; [|reflexivity].
  cbn. now rewrite E.
Qed.

Lemma filter_truthy_core (len : Length) (summary : str) (bullets : list str)
    (rest : list str) :
  filter truthy ([core_sentence len summary bullets] ++ rest) <> [].
Proof.
  cbn [app filter]. now rewrite core_sentence_truthy.
Qed.

Lemma contains_nonempty (s w : str) :
  contains s w -> truthy w = true -> s <> EMPTY.
Proof.
  intros (pre & post & ->) Hw.
  destruct w; [discriminate|]. unfold EMPTY. destruct pre; discriminate.
Qed.

(** X11: The composed message is never empty: it always holds the core
    sentence, which ends the summary with a period. *)
Theorem compose_message_has_core (U : UnicodeData) (txt : str) (tone : Tone)
    (med : Medium) (len : Length) (loc : Locale)
    (include_bullets add_subject : bool) (g : Rng) :
  exists v g',
    compose_message U txt tone med len loc include_bullets add_subject g
    = Some (v, g')
    /\ message v <> EMPTY
    /\ contains (message v)
         (core_sentence len (summary_of txt (to_bullets U txt))
            (to_bullets U txt))
    /\ contains (message v) (summary_of txt (to_bullets U txt) ++ u ".").
Proof.
  destruct (compose_message_picks U txt tone med len loc include_bullets
              add_subject g)
    as (bank & greeting & opener & politeness & s_off & subj & g' & _ & _ & _
        & _ & _ & _ & Heq).
  eexists. exists g'. split; [exact Heq|]. cbn [message].
  set (core := core_sentence len (summary_of txt (to_bullets U txt))
                 (to_bullets U txt)).
  assert (Hc : contains
                 (join [NL; NL]
                    (filter truthy
                       (greeting_part med greeting ++ optional_part opener
                        ++ bullet_part tone med include_bullets (to_bullets U txt)
                        ++ [core] ++ optional_part politeness
                        ++ optional_part s_off)))
                 core).
  { apply join_contains. apply filter_In. split.
    - rewrite !in_app_iff. right. right. right. left. now left.
    - apply core_sentence_truthy. }
  split; [|split; [exact Hc|]].
  - apply (contains_nonempty Hc). apply core_sentence_truthy.
  - destruct Hc as (pre & post & ->).
    unfold core, core_sentence. destruct len.
    + exists pre, post. reflexivity.
    + exists pre,
        (u " Requesting your input on the above so we can proceed without delay."
         ++ post).
      replace (u ". Requesting your input on the above so we can proceed without delay.")
        with (u "." ++ u " Requesting your input on the above so we can proceed without delay.")
        by (vm_compute; reflexivity).
      rewrite <- !app_assoc. reflexivity.
    + set (tail := (if (2 <? List.length (to_bullets U txt))%nat
                    then join (u ", ") (slice 2 5 (to_bullets U txt))
                    else u "see above")
                   ++ u ". "
                   ++ u "Next steps: we'll align on owners & timelines after your feedback.").
      exists pre, (u " Here's the context: " ++ tail ++ post).
      replace (u ". Here's the context: ")
        with (u "." ++ u " Here's the context: ") by (vm_compute; reflexivity).
      rewrite <- !app_assoc. reflexivity.
Qed.

Lemma allowed_sign_offs_truthy (med : Medium) :
  med <> doc -> forallb truthy (allowed_sign_offs med) = true.
Proof. destruct med; try reflexivity. congruence. Qed.

(** X12: On every medium but "doc" the message ends with a blank line followed
    by a sign-off of the medium's bank. *)
Theorem compose_message_ends_with_sign_off (U : UnicodeData) (txt : str)
    (tone : Tone) (med : Medium) (len : Length) (loc : Locale)
    (include_bullets add_subject : bool) (g : Rng) :
  med <> doc ->
  exists v g' s_off body,
    compose_message U txt tone med len loc include_bullets add_subject g
    = Some (v, g')
    /\ In s_off (allowed_sign_offs med)
    /\ s_off <> EMPTY
    /\ message v = body ++ [NL; NL] ++ s_off.
Proof.
  intros Hmed.
  destruct (compose_message_picks U txt tone med len loc include_bullets
              add_subject g)
    as (bank & greeting & opener & politeness & s_off & subj & g' & _ & _ & _
        & _ & _ & Hs & Heq).
  pose proof (allowed_sign_offs_truthy Hmed) as Hall.
  rewrite forallb_forall in Hall. specialize (Hall s_off Hs).
  set (front := greeting_part med greeting ++ optional_part opener
                ++ bullet_part tone med include_bullets (to_bullets U txt)
                ++ [core_sentence len (summary_of txt (to_bullets U txt))
                      (to_bullets U txt)]
                ++ optional_part politeness).
  assert (Hparts :
            greeting_part med greeting ++ optional_part opener
            ++ bullet_part tone med include_bullets (to_bullets U txt)
            ++ [core_sentence len (summary_of txt (to_bullets U txt))
                  (to_bullets U txt)]
            ++ optional_part politeness ++ optional_part s_off
            = front ++ [s_off]).
  { unfold front, optional_part at 3. rewrite Hall.
    now rewrite <- !app_assoc. }
  assert (Hfront : filter truthy front <> []).
  { unfold front. rewrite !filter_app. intros H.
    apply app_eq_nil in H. destruct H as [_ H].
    apply app_eq_nil in H. destruct H as [_ H].
    apply app_eq_nil in H. destruct H as [_ H].
    apply app_eq_nil in H. destruct H as [H _].
    cbn in H. rewrite core_sentence_truthy in H. discriminate H. }
  rewrite Hparts in Heq.
  rewrite filter_app in Heq. cbn [filter] in Heq. rewrite Hall in Heq.
  rewrite (join_snoc [NL; NL] s_off Hfront) in Heq.
  eexists. exists g', s_off, (join [NL; NL] (filter truthy front)).
  split; [exact Heq|]. split; [exact Hs|].
  split; [unfold EMPTY; destruct s_off; [discriminate Hall | discriminate]|].
  reflexivity.
Qed.

Lemma compose_message_ends_with_sign_off_witness :
  slack <> doc
  /\ exists v g' s_off body,
       compose_message ascii_tables (u "Ship the report") casual slack short
         Generic false false zero_draws
       = Some (v, g')
       /\ In s_off (allowed_sign_offs slack)
       /\ s_off <> EMPTY
       /\ message v = body ++ [NL; NL] ++ s_off.
Proof.
  assert (H : slack <> doc) by discriminate.
  split; [exact H|].
  exact (@compose_message_ends_with_sign_off ascii_tables (u "Ship the report")
           casual slack short Generic false false zero_draws H).
Defined.

Lemma locale_greetings_truthy (loc : Locale) :
  loc <> Generic ->
  locale_greetings loc <> [] /\ forallb truthy (locale_greetings loc) = true.
Proof. destruct loc; try (split; [discriminate | reflexivity]). congruence. Qed.

Lemma message_tail_nonempty (tone : Tone) (med : Medium)
    (include_bullets : bool) (bullets : list str) (core politeness s_off : str) :
  truthy core = true ->
  filter truthy
    (bullet_part tone med include_bullets bullets
     ++ [core] ++ optional_part politeness ++ optional_part s_off) <> [].
Proof.
  intros Hc. rewrite !filter_app. intros H.
  apply app_eq_nil in H. destruct H as [_ H].
  apply app_eq_nil in H. destruct H as [H _].
  cbn in H. rewrite Hc in H. discriminate H.
Qed.

(** X13: Where no greeting applies, on a medium other than email and doc or for
    the locale "Generic", the message opens with an opener of the tone's
    bank, followed by a blank line. *)
Theorem compose_message_opens_with_opener (U : UnicodeData) (txt : str)
    (tone : Tone) (med : Medium) (len : Length) (loc : Locale)
    (include_bullets add_subject : bool) (g : Rng) :
  (med <> email /\ med <> doc) \/ loc = Generic ->
  exists v g' bank opener rest,
    compose_message U txt tone med len loc include_bullets add_subject g
    = Some (v, g')
    /\ subscript Tone_beq OPENERS tone = Some bank
    /\ In opener bank
    /\ message v = opener ++ [NL; NL] ++ rest.
Proof.
  intros Hcase.
  destruct (compose_message_picks U txt tone med len loc include_bullets
              add_subject g)
    as (bank & greeting & opener & politeness & s_off & subj & g' & Hbank
        & Hino & Hto & Hg & _ & _ & Heq).
  assert (HG : greeting_part med greeting = []).
  { unfold greeting_part. destruct Hcase as [[H1 H2] | ->].
    - replace (in_email_doc med) with false by (now destruct med).
      reflexivity.
    - destruct Hg as [Hg | [_ ->]]; [destruct Hg|].
      now rewrite andb_false_r. }
  rewrite HG in Heq. cbn [app] in Heq.
  unfold optional_part at 1 in Heq. rewrite Hto in Heq.
  cbn [app filter] in Heq. rewrite Hto in Heq.
  rewrite join_cons in Heq
    by (apply message_tail_nonempty; apply core_sentence_truthy).
  eexists. exists g', bank, opener. eexists.
  split; [exact Heq|]. split; [exact Hbank|]. split; [exact Hino|].
  reflexivity.
Qed.

Lemma compose_message_opens_with_opener_witness :
  ((slack <> email /\ slack <> doc) \/ US = Generic)
  /\ exists v g' bank opener rest,
       compose_message ascii_tables (u "Ship it") friendly slack long US true
         false zero_draws
       = Some (v, g')
       /\ subscript Tone_beq OPENERS friendly = Some bank
       /\ In opener bank
       /\ message v = opener ++ [NL; NL] ++ rest.
Proof.
  assert (H : (slack <> email /\ slack <> doc) \/ US = Generic)
    by (left; split; discriminate).
  split; [exact H|].
  exact (@compose_message_opens_with_opener ascii_tables (u "Ship it") friendly
           slack long US true false zero_draws H).
Defined.

(** X14: On email and doc, for every locale but "Generic", the message opens
    with a greeting of the locale, a blank line, an opener of the tone and
    another blank line. *)
Theorem compose_message_opens_with_greeting (U : UnicodeData) (txt : str)
    (tone : Tone) (med : Medium) (len : Length) (loc : Locale)
    (include_bullets add_subject : bool) (g : Rng) :
  med = email \/ med = doc ->
  loc <> Generic ->
  exists v g' bank greeting opener rest,
    compose_message U txt tone med len loc include_bullets add_subject g
    = Some (v, g')
    /\ In greeting (locale_greetings loc)
    /\ subscript Tone_beq OPENERS tone = Some bank
    /\ In opener bank
    /\ message v = greeting ++ [NL; NL] ++ opener ++ [NL; NL] ++ rest.
Proof.
  intros Hmed Hloc.
  destruct (compose_message_picks U txt tone med len loc include_bullets
              add_subject g)
    as (bank & greeting & opener & politeness & s_off & subj & g' & Hbank
        & Hino & Hto & Hg & _ & _ & Heq).
  destruct (locale_greetings_truthy Hloc) as [Hne Hall].
  destruct Hg as [Hg | [Hnil _]]; [|contradiction].
  rewrite forallb_forall in Hall. pose proof (Hall greeting Hg) as Htg.
  assert (HG : greeting_part med greeting = [greeting]).
  { unfold greeting_part. rewrite Htg.
    destruct Hmed as [-> | ->]; reflexivity. }
  rewrite HG in Heq. cbn [app] in Heq.
  unfold optional_part at 1 in Heq. rewrite Hto in Heq.
  cbn [app filter] in Heq. rewrite Htg, Hto in Heq.
  rewrite join_cons in Heq by discriminate.
  rewrite join_cons in Heq
    by (apply message_tail_nonempty; apply core_sentence_truthy).
  eexists. exists g', bank, greeting, opener. eexists.
  split; [exact Heq|]. split; [exact Hg|].
  split; [exact Hbank|]. split; [exact Hino|].
  reflexivity.
Qed.

Lemma compose_message_opens_with_greeting_witness :
  (email = email \/ email = doc)
  /\ UK <> Generic
  /\ exists v g' bank greeting opener rest,
       compose_message ascii_tables (u "Ship it") formal email short UK false
         true zero_draws
       = Some (v, g')
       /\ In greeting (locale_greetings UK)
       /\ subscript Tone_beq OPENERS formal = Some bank
       /\ In opener bank
       /\ message v = greeting ++ [NL; NL] ++ opener ++ [NL; NL] ++ rest.
Proof.
  assert (H1 : email = email \/ email = doc) by (left; reflexivity).
  assert (H2 : UK <> Generic) by discriminate.
  split; [exact H1|]. split; [exact H2|].
  exact (@compose_message_opens_with_greeting ascii_tables (u "Ship it") formal
           email short UK false true zero_draws H1 H2).
Defined.

(** ** Replies on chat media *)

Lemma replace_char_gone (c : char) (new : str) (s : str) :
  ~ In c new ->
  forall k, ~ In c (replace_from [c] new k s).
Proof.
  intros Hnew. induction s as [|x t IH]; intros k; [intros []|].
  destruct k as [|k]; [|exact (IH k)].
  cbn [replace_from starts List.length pred].
  replace (starts t []) with true by (now destruct t).
  rewrite andb_true_r.
  destruct (char_eqb c x) eqn:E.
  - rewrite in_app_iff. intros [H | H]; [now apply Hnew | now apply (IH 0%nat)].
  - intros [H | H]; [|now apply (IH 0%nat)].
    subst x. unfold char_eqb in E. rewrite N.eqb_refl in E. discriminate E.
Qed.

(** X15: [reply_suggestions] never raises, for any request; on slack and teams
    no reply it returns contains an em-dash, for every style and every
    count. *)
Theorem reply_suggestions_chat_has_no_em_dash (req : ReplySuggestionsRequest) :
  exists replies,
    reply_suggestions req = Some replies
    /\ (req_medium req = slack \/ req_medium req = teams ->
        forall r, In r replies -> ~ In EM_DASH r).
Proof.
  unfold reply_suggestions.
  change (subscript Style_beq style_map neutral)
    with (Some (nth 0 (map snd style_map) [])).
  cbv beta iota zeta.
  eexists. split; [reflexivity|].
  intros Hm r Hr.
  replace (Medium_beq (req_medium req) slack || Medium_beq (req_medium req) teams)
    with true in Hr by (destruct Hm as [-> | ->]; reflexivity).
  apply in_map_iff in Hr. destruct Hr as (x & <- & _).
  apply replace_char_gone.
  intros H. vm_compute in H. intuition discriminate.
Qed.

Lemma reply_suggestions_chat_has_no_em_dash_witness :
  (slack = slack \/ slack = teams)
  /\ exists replies,
       reply_suggestions {| incoming := u "ok?"; style := positive;
                            req_medium := slack; suggestions := 6 |}
       = Some replies
       /\ forall r, In r replies -> ~ In EM_DASH r.
Proof.
  assert (H : slack = slack \/ slack = teams) by (left; reflexivity).
  split; [exact H|].
  destruct (reply_suggestions_chat_has_no_em_dash
              {| incoming := u "ok?"; style := positive; req_medium := slack;
                 suggestions := 6 |}) as (replies & Heq & Hno).
  exists replies. split; [exact Heq | exact (Hno H)].
Defined.

(** ** The proxy-secret guard *)

Lemma truthy_opt_some (o : option str) :
  truthy_opt o = true -> exists c t, o = Some (c :: t).
Proof.
  destruct o as [[|c t]|]; try discriminate. intros _. now exists c, t.
Qed.

(** X16: A request passes [require_proxy_secret] exactly when no secret is
    configured (unset or empty) or its header equals the secret; otherwise
    it is rejected with status 401, as "Missing" when the header is absent
    or empty and as "Invalid" when it differs. *)
Theorem require_proxy_secret_accepts_iff (secret header : option str) :
  (require_proxy_secret secret header = Accepted
   <-> (truthy_opt secret = false \/ header = secret))
  /\ (forall e, require_proxy_secret secret header = Rejected e ->
        status_code e = 401%Z
        /\ (truthy_opt header = false ->
            detail e = u "Missing X-RapidAPI-Proxy-Secret header")
        /\ (truthy_opt header = true ->
            detail e = u "Invalid X-RapidAPI-Proxy-Secret header")).
Proof.
  unfold require_proxy_secret.
  destruct (truthy_opt secret) eqn:Es.
  - destruct (truthy_opt header) eqn:Eh; cbn [negb].
    + destruct (opt_str_eqb header secret) eqn:E; cbn [negb].
      * split.
        -- split; [intros _; right | reflexivity].
           destruct header as [h|], secret as [x|]; try discriminate.
           cbn in E. apply str_eqb_eq in E. now subst.
        -- discriminate.
      * split.
        -- split; [discriminate|]. intros [H | ->]; [discriminate|].
           destruct secret as [x|]; [|discriminate].
           cbn in E. assert (str_eqb x x = true) by now apply str_eqb_eq.
           congruence.
        -- intros e [= <-]. cbn. repeat split; trivial. discriminate.
    + split.
      * split; [discriminate|]. intros [H | ->]; [discriminate | congruence].
      * intros e [= <-]. cbn. repeat split; trivial. discriminate.
  - split.
    + split; [now left | reflexivity].
    + discriminate.
Qed.

(** ** The variants of [polish] *)

Lemma sub_nonempty (r : Re.regex) (repl s : str) :
  repl <> [] -> s <> [] -> Re.sub r repl s <> [].
Proof.
  intros Hr Hs. destruct s as [|c t]; [congruence|].
  unfold Re.sub. rewrite sub_from_unfold.
  destruct (Re.match_re r None (c :: t)) as [[|n]|]; try discriminate.
  destruct repl; [congruence | discriminate].
Qed.

Lemma apply_level_nonempty (U : UnicodeData) (lvl : list (list Re.atom * str))
    (s : str) :
  Forall (fun pr => snd pr <> []) lvl -> s <> [] -> apply_level U lvl s <> [].
Proof.
  intros Hl. unfold apply_level. revert s.
  induction Hl as [|pr lvl Hp _ IH]; intros s Hs; [exact Hs|].
  cbn [fold_left]. apply IH. now apply sub_nonempty.
Qed.

Lemma level_one_replacements (U : UnicodeData) :
  Forall (fun pr => snd pr <> []) (nth 1 (BUZZWORD_MAP_LEVELS U) []).
Proof.
  cbn [nth BUZZWORD_MAP_LEVELS].
  repeat (apply Forall_cons; [discriminate|]). apply Forall_nil.
Qed.

(** A light pass of buzzwords never raises and never empties a text. *)
Lemma apply_buzzwords_one (U : UnicodeData) (s : str) :
  exists out,
    apply_buzzwords U s 1 = Some out /\ (s <> [] -> out <> []).
Proof.
  exists (apply_level U (nth 1 (BUZZWORD_MAP_LEVELS U) []) s).
  split; [reflexivity|].
  apply apply_level_nonempty. apply level_one_replacements.
Qed.

Lemma compose_message_well_formed (U : UnicodeData) (req : PolishRequest)
    (g : Rng) :
  exists v g',
    compose_message U (pr_text req) (pr_tone req) (pr_medium req)
      (pr_length req) (pr_locale req) (pr_include_bullets req)
      (pr_add_subject req) g
    = Some (v, g')
    /\ variant_well_formed req v.
Proof.
  destruct (compose_message_picks U (pr_text req) (pr_tone req) (pr_medium req)
              (pr_length req) (pr_locale req) (pr_include_bullets req)
              (pr_add_subject req) g)
    as (bank & greeting & opener & politeness & s_off & subj & g' & _ & _ & _
        & _ & _ & _ & Heq).
  destruct (compose_message_eq U (pr_text req) (pr_tone req) (pr_medium req)
              (pr_length req) (pr_locale req) (pr_include_bullets req)
              (pr_add_subject req) g)
    as (greeting2 & opener2 & politeness2 & s_off2 & subj2 & g2 & Heq2 & _ & Hs).
  cbv zeta in Heq2. rewrite Heq in Heq2. injection Heq2 as Hsubj _ _.
  eexists. exists g'. split; [exact Heq|].
  unfold variant_well_formed. cbn [subject message].
  split; [|split].
  - destruct (Medium_beq (pr_medium req) email && pr_add_subject req) eqn:E.
    + destruct Hs as (sj & Hsj & _). rewrite Hsubj, Hsj.
      apply andb_true_iff in E. destruct E as [Em Ea].
      split; [intros _; split; [now destruct (pr_medium req) | exact Ea]
             | discriminate].
    + rewrite Hsubj, Hs. split; [congruence|].
      intros [Hm Ha]. rewrite Hm, Ha in E. discriminate E.
  - destruct (Medium_beq (pr_medium req) email && pr_add_subject req).
    + destruct Hs as (sj & Hsj & Hne). rewrite Hsubj, Hsj.
      intros [= H]. now apply Hne.
    + rewrite Hsubj, Hs. discriminate.
  - apply contains_nonempty
      with (w := core_sentence (pr_length req)
                   (summary_of (pr_text req) (to_bullets U (pr_text req)))
                   (to_bullets U (pr_text req)));
      [|apply core_sentence_truthy].
    apply join_contains. apply filter_In. split.
    + rewrite !in_app_iff. right. right. right. left. now left.
    + apply core_sentence_truthy.
Qed.

Lemma polish_variant_ok (U : UnicodeData) (req : PolishRequest) (g : Rng) :
  exists v g',
    polish_variant U req g = Some (v, g') /\ variant_well_formed req v.
Proof.
  destruct (compose_message_well_formed U req g) as (v & g1 & Hc & Hsub & Hne & Hm).
  unfold polish_variant, bind. rewrite Hc.
  unfold random_random.
  destruct (below_half _).
  - destruct (apply_buzzwords_one U (message v)) as (m & Hbm & Hmne).
    rewrite Hbm. cbn [lift ret].
    destruct (subject v) as [sj|] eqn:Es.
    + destruct (truthy sj) eqn:Et.
      * destruct (apply_buzzwords_one U sj) as (sj' & Hbs & Hsne).
        rewrite Hbs. cbn [lift ret].
        eexists. eexists. split; [reflexivity|].
        unfold variant_well_formed. cbn [subject message].
        split; [|split].
        -- split; [intros _; apply Hsub; discriminate | discriminate].
        -- intros [= H]. apply Hsne; [|exact H]. now destruct sj.
        -- now apply Hmne.
      * destruct sj; [|discriminate Et]. now destruct Hne.
    + eexists. eexists. split; [reflexivity|].
      unfold variant_well_formed. cbn [subject message].
      split; [exact Hsub|]. split; [discriminate | now apply Hmne].
  - eexists. eexists. split; [reflexivity|].
    unfold variant_well_formed.
    split; [exact Hsub|]. split; [exact Hne | exact Hm].
Qed.

Lemma polish_loop_ok (U : UnicodeData) (req : PolishRequest) (rounds : list Z) :
  forall (vs : list MessageVariant) (g : Rng),
    Forall (variant_well_formed req) vs ->
    exists vs' g',
      polish_loop U rounds req vs g = Some (vs', g')
      /\ List.length vs' = (List.length vs + List.length rounds)%nat
      /\ Forall (variant_well_formed req) vs'.
Proof.
  induction rounds as [|r rounds IH]; intros vs g Hvs.
  - exists vs, g. split; [reflexivity|]. split; [cbn; lia | exact Hvs].
  - cbn [polish_loop]. unfold bind.
    destruct (polish_variant_ok U req g) as (v & g1 & Hv & Hwf).
    rewrite Hv.
    destruct (IH (vs ++ [v]) g1) as (vs' & g' & Hl & Hlen & Hall).
    + apply Forall_app. split; [exact Hvs | now constructor].
    + exists vs', g'. split; [exact Hl|]. split; [|exact Hall].
      rewrite Hlen, length_app. cbn. lia.
Qed.

Lemma range_length (n : Z) : List.length (range 0 n) = Z.to_nat n.
Proof.
  unfold range. rewrite length_map, length_seq. f_equal. lia.
Qed.

(** X17: [polish] never raises and returns exactly [suggestions] variants (none
    for a count of zero or less); the response echoes the parameters of the
    request. *)
Theorem polish_variant_count (U : UnicodeData) (seeded : Z -> Rng)
    (req : PolishRequest) :
  exists resp,
    polish U seeded req = Some resp
    /\ List.length (variants resp) = Z.to_nat (pr_suggestions req)
    /\ meta resp
       = {| meta_tone := pr_tone req; meta_medium := pr_medium req;
            meta_length := pr_length req; meta_locale := pr_locale req;
            meta_suggestions := pr_suggestions req |}.
Proof.
  unfold polish.
  destruct (@polish_loop_ok U req (range 0 (pr_suggestions req)) []
              (seeded (Z.of_nat (List.length (pr_text req)) + pr_suggestions req)%Z)
              (Forall_nil (variant_well_formed req)))
    as (vs & g' & Hl & Hlen & _).
  rewrite Hl. eexists. split; [reflexivity|].
  cbn [variants meta]. split; [|reflexivity].
  rewrite Hlen, range_length. reflexivity.
Qed.

(** X18: Every variant of [polish], buzzworded or not, has a subject exactly
    when the medium is email and [add_subject] is set, a subject that is
    never empty, and a message that is never empty. *)
Theorem polish_variants_well_formed (U : UnicodeData) (seeded : Z -> Rng)
    (req : PolishRequest) :
  exists resp,
    polish U seeded req = Some resp
    /\ forall v, In v (variants resp) ->
         (subject v <> None
          <-> (pr_medium req = email /\ pr_add_subject req = true))
         /\ subject v <> Some EMPTY
         /\ message v <> EMPTY.
Proof.
  unfold polish.
  destruct (@polish_loop_ok U req (range 0 (pr_suggestions req)) []
              (seeded (Z.of_nat (List.length (pr_text req)) + pr_suggestions req)%Z)
              (Forall_nil (variant_well_formed req)))
    as (vs & g' & Hl & _ & Hall).
  rewrite Hl. eexists. split; [reflexivity|].
  cbn [variants]. rewrite Forall_forall in Hall. exact Hall.
Qed.

(** ** The phrase reference *)

(** X19: [phrases] never raises and never returns an empty map.  For a key of
    the map it returns that one entry; for any other context, none or the
    empty string included, it returns the whole map.  Every list it returns
    holds three phrases. *)
Theorem phrases_lookup (context : option str) :
  exists d,
    phrases context = Some d
    /\ d <> []
    /\ (forall c l, context = Some c -> subscript str_eqb PHRASES c = Some l ->
          d = [(c, l)])
    /\ (forall c, context = Some c -> subscript str_eqb PHRASES c = None ->
          d = PHRASES)
    /\ (context = None -> d = PHRASES)
    /\ (forall k l, In (k, l) d ->
          subscript str_eqb PHRASES k = Some l /\ List.length l = 3%nat).
Proof.
  assert (Hbase : forall k l, In (k, l) PHRASES ->
             subscript str_eqb PHRASES k = Some l /\ List.length l = 3%nat).
  { intros k l Hin. cbn in Hin.
    destruct Hin as [H | [H | [H | [H | []]]]]; injection H as <- <-;
      split; reflexivity. }
  assert (Hmem : forall c, dict_mem c PHRASES = true
                           <-> exists l, subscript str_eqb PHRASES c = Some l).
  { intros c. unfold dict_mem, PHRASES.
    cbn [existsb subscript fst].
    repeat match goal with
           | |- context [str_eqb c ?k] => destruct (str_eqb c k) eqn:?
           end; cbn [orb]; split; try discriminate; eauto;
      intros [l H]; discriminate H. }
  assert (Hempty : subscript str_eqb PHRASES [] = None) by reflexivity.
  unfold phrases. cbv zeta.
  destruct context as [c|].
  - destruct (subscript str_eqb PHRASES c) as [l|] eqn:E.
    + assert (Hc : truthy c && dict_mem c PHRASES = true).
      { apply andb_true_iff. split.
        - destruct c; [rewrite Hempty in E; discriminate | reflexivity].
        - apply Hmem. now exists l. }
      rewrite Hc. exists [(c, l)].
      split; [reflexivity|]. split; [discriminate|].
      split; [intros c' l' [= <-] H; rewrite E in H; now injection H as <-|].
      split; [intros c' [= <-] H; rewrite E in H; discriminate H|].
      split; [discriminate|].
      intros k l' [[= <- <-] | []].
      split; [exact E|].
      assert (Hin : In (c, l) PHRASES).
      { clear - E. unfold PHRASES in *. cbn [subscript] in E.
        repeat match type of E with
               | (if str_eqb c ?k then _ else _) = _ =>
                   let H := fresh in
                   destruct (str_eqb c k) eqn:H;
                   [ apply str_eqb_eq in H; injection E as <-; subst c;
                     cbn; tauto | ]
               end.
        discriminate E. }
      exact (proj2 (Hbase c l Hin)).
    + assert (Hc : truthy c && dict_mem c PHRASES = false).
      { apply andb_false_iff. right.
        destruct (dict_mem c PHRASES) eqn:D; [|reflexivity].
        apply Hmem in D. destruct D as [l D]. rewrite E in D. discriminate D. }
      rewrite Hc. exists PHRASES.
      split; [reflexivity|]. split; [discriminate|].
      split; [intros c' l' [= <-] H; rewrite E in H; discriminate H|].
      split; [reflexivity|]. split; [discriminate | exact Hbase].
  - exists PHRASES.
    split; [reflexivity|]. split; [discriminate|].
    split; [discriminate|]. split; [discriminate|].
    split; [reflexivity | exact Hbase].
Qed.
